(** * go-search: query execution and aggregation engine

    A shallow embedding of [search.go], [config.go] and [main.go]:
    the retrying executors, the summarizer, the per-query worker body, the
    single-query branch of [main] and the goroutine pool of
    [processMultipleQueries].

    The remote backend, the clock, the logger and the terminal are the
    program's environment.  Code that talks to them is written in a small
    free monad [Prog] over the effects it performs; an arbitrary handler
    gives the effects a meaning, so every theorem below holds for every
    backend, every clock and every deadline behaviour. *)

From Stdlib Require Import ZArith String List Bool Lia DecimalString.
From stdpp Require Import base list strings.

Local Open Scope Z_scope.

(** ** Data model ([config.go]) *)

(** [time.Time] and [time.Duration], both counted in nanoseconds. *)
Abbreviation Time := Z (only parsing).
Abbreviation TimeDuration := Z (only parsing).

Definition Second : TimeDuration := 1000000000.

(** A Go [error] value, identified with the message [err.Error()]. *)
Abbreviation GoError := string (only parsing).

Record Config := mkConfig {
  query : string;
  queries : list string;
  outputJSON : bool;
  verbose : bool;
  stream : bool;
  workers : Z;
  timeout : TimeDuration;
  includeSummary : bool;
  includeSummaryExplicit : bool
}.

Record SearchResult := mkSearchResult {
  Query : string;
  Response : string;
  Summary : string;
  Success : bool;
  Error : string;
  Duration : TimeDuration;
  Timestamp : Time
}.

Record MultiSearchResult := mkMultiSearchResult {
  Results : list SearchResult;
  TotalTime : TimeDuration;
  MSuccess : bool;
  MError : string
}.

(** The zero value of [SearchResult], as left by [make([]SearchResult, n)]. *)
Definition zeroSearchResult : SearchResult :=
  mkSearchResult "" "" "" false "" 0 0.

(** ** The backend interface ([genai]) *)

(** What the program observes of a [*genai.GenerateContentResponse]:
    [len(response.Candidates)] and [response.Text()]. *)
Record GenResponse := mkGenResponse {
  Candidates : nat;
  Text : string
}.

(** The pair [(response, err)] returned by [Models.GenerateContent]. *)
Inductive GenResult :=
| GenErr (err : GoError)
| GenOk (response : GenResponse).

(** One pair [(response, err)] yielded by the iterator of
    [Models.GenerateContentStream]. *)
Inductive StreamItem :=
| StreamErr (err : GoError)
| StreamChunk (response : GenResponse).

(** The request sent to the backend.  [SearchRequest] is the user content
    built from the query and the date of [today] with the system
    instruction, the tools and the thinking budget; [SummaryRequest] is the
    content built from query and answer with the summary instruction. *)
Inductive Request :=
| SearchRequest (q : string) (today : Time)
| SummaryRequest (q : string) (response : string).

Inductive LogValue :=
| LStr (s : string)
| LInt (n : Z)
| LBool (b : bool)
| LDuration (d : TimeDuration).

(** ** Effects and programs *)

Inductive Effect : Type -> Type :=
| TimeNow : Effect Time
| TimeSleep (d : TimeDuration) : Effect unit
| GenerateContent (req : Request) : Effect GenResult
| GenerateContentStream (req : Request) : Effect (list StreamItem)
| SlogInfo (msg : string) (attrs : list (string * LogValue)) : Effect unit
| SlogError (msg : string) (err : GoError) : Effect unit
| Stdout (s : string) : Effect unit
| Stderr (s : string) : Effect unit.

(** Finite programs over [Effect]: a result, or an effect and the rest of
    the program for each of its answers. *)
Inductive Prog (A : Type) : Type :=
| Ret (a : A)
| Vis {X : Type} (e : Effect X) (k : X -> Prog A).

Arguments Ret {A} a.
Arguments Vis {A X} e k.

Fixpoint bind {A B : Type} (m : Prog A) (f : A -> Prog B) : Prog B :=
  match m with
  | Ret a => f a
  | Vis e k => Vis e (fun x => bind (k x) f)
  end.

Definition trigger {X : Type} (e : Effect X) : Prog X := Vis e Ret.

#[global] Instance Prog_ret : MRet Prog := @Ret.
#[global] Instance Prog_bind : MBind Prog := fun A B f m => bind m f.

(** An environment is a state [W] and the answer it gives to each effect. *)
Definition Handler (W : Type) : Type := forall X : Type, Effect X -> W -> X * W.

Fixpoint run {W A : Type} (h : Handler W) (p : Prog A) (w : W) : A * W :=
  match p with
  | Ret a => (a, w)
  | Vis e k => let '(x, w') := h _ e w in run h (k x) w'
  end.

(** An effect performed together with the answer it received. *)
Inductive Event : Type :=
| Ev {X : Type} (e : Effect X) (x : X).

(** The same environment, recording every effect it answers. *)
Definition traced {W : Type} (h : Handler W) : Handler (W * list Event) :=
  fun X e s =>
    let '(x, w') := h X e (fst s) in (x, (w', snd s ++ [Ev e x])).

(** The events of running [p] from [w]. *)
Definition trace_of {W A : Type} (h : Handler W) (p : Prog A) (w : W) : list Event :=
  snd (snd (run (traced h) p (w, []))).

(** The answers of the one-shot backend calls in a trace, in order. *)
Definition generate_answer (ev : Event) : option GenResult :=
  match ev with
  | @Ev X e x =>
      match e in Effect T return T -> option GenResult with
      | GenerateContent _ => fun r => Some r
      | _ => fun _ => None
      end x
  end.

(** The answers of the streaming backend calls in a trace, in order. *)
Definition stream_answer (ev : Event) : option (list StreamItem) :=
  match ev with
  | @Ev X e x =>
      match e in Effect T return T -> option (list StreamItem) with
      | GenerateContentStream _ => fun r => Some r
      | _ => fun _ => None
      end x
  end.

(** The clock readings in a trace, in order. *)
Definition clock_reading (ev : Event) : option Time :=
  match ev with
  | @Ev X e x =>
      match e in Effect T return T -> option Time with
      | TimeNow => fun t => Some t
      | _ => fun _ => None
      end x
  end.

Definition generate_calls (tr : list Event) : list GenResult :=
  omap generate_answer tr.

Definition stream_calls (tr : list Event) : list (list StreamItem) :=
  omap stream_answer tr.

Definition clock_readings (tr : list Event) : list Time :=
  omap clock_reading tr.

(** ** The retrying executor ([search.go], [performSingleSearch]) *)

(** The loop's exit test [err == nil && response.Text() != ""]. *)
Definition answered (r : GenResult) : bool :=
  match r with
  | GenErr _ => false
  | GenOk response => negb (String.eqb (Text response) "")
  end.

(** [for attempt := 0; attempt < 2; attempt++ { ... }], entered at
    [attempt] with [more] iterations left after this one.  The result is
    the pair [(response, err)] of the last call made. *)
Fixpoint searchAttempts (req : Request) (q : string) (attempt : Z) (more : nat)
  : Prog GenResult :=
  r ← trigger (GenerateContent req);
  if answered r then mret r
  else
    (if attempt =? 0
     then trigger (SlogInfo "Retrying search request"
                     [("query", LStr q); ("attempt", LInt (attempt + 2))]);;
          trigger (TimeSleep (3 * Second))
     else mret tt);;
    match more with
    | O => mret r
    | S more' => searchAttempts req q (attempt + 1) more'
    end.

Definition performSingleSearch (q : string) : Prog (SearchResult * option GoError) :=
  startTime ← trigger TimeNow;
  today ← trigger TimeNow;
  trigger (SlogInfo "Performing search" [("query", LStr q)]);;
  r ← searchAttempts (SearchRequest q today) q 0 1;
  now ← trigger TimeNow;
  let duration := now - startTime in
  match r with
  | GenErr err =>
      mret (mkSearchResult q "" "" false "Search failed" duration startTime,
            Some ("failed to generate content after retries: " +:+ err))
  | GenOk response =>
      if String.eqb (Text response) ""
      then mret (mkSearchResult q "" "" false "Empty response" duration startTime,
                 Some "received empty response after retries")
      else mret (mkSearchResult q (Text response) "" true "" duration startTime,
                 None)
  end.

(** ** The streaming executor ([search.go], [performSingleSearchStream]) *)

Definition newline : string := String (Ascii.ascii_of_nat 10) "".

Definition horizontalRule : string :=
  "─────────────────────────────────────────────────────────────────────────────".

(** [for response, err := range iterator { ... }] over the pairs the
    iterator yields.  The result is [responseText] and the error the loop
    broke on, if it did: [streamSuccess] is false exactly then. *)
Fixpoint consumeStream (items : list StreamItem) (responseText : string)
  : Prog (string * option GoError) :=
  match items with
  | [] => mret (responseText, None)
  | StreamErr err :: _ => mret (responseText, Some err)
  | StreamChunk response :: rest =>
      if (0 <? Candidates response)%nat
      then let chunk := Text response in
           trigger (Stdout chunk);;
           consumeStream rest (responseText +:+ chunk)
      else consumeStream rest responseText
  end.

(** The retry loop of the streaming executor, entered at [attempt] with
    [more] iterations left after this one; [lastErr] survives from one
    attempt to the next, [responseText] is reset by each.  The result is
    [(responseText, lastErr)] as the loop leaves them. *)
Fixpoint streamAttempts (req : Request) (q : string) (attempt : Z)
    (lastErr : option GoError) (more : nat) : Prog (string * option GoError) :=
  items ← trigger (GenerateContentStream req);
  '(responseText, broke) ← consumeStream items "";
  let lastErr := match broke with Some err => Some err | None => lastErr end in
  let streamSuccess := match broke with Some _ => false | None => true end in
  if streamSuccess && negb (String.eqb responseText "")
  then mret (responseText, lastErr)
  else
    (if attempt =? 0
     then trigger (SlogInfo "Retrying stream search request"
                     [("query", LStr q); ("attempt", LInt (attempt + 2))]);;
          trigger (Stdout (newline +:+ "[Retrying...]" +:+ newline));;
          trigger (TimeSleep (3 * Second))
     else mret tt);;
    match more with
    | O => mret (responseText, lastErr)
    | S more' => streamAttempts req q (attempt + 1) lastErr more'
    end.

Definition performSingleSearchStream (q : string)
  : Prog (SearchResult * option GoError) :=
  startTime ← trigger TimeNow;
  today ← trigger TimeNow;
  trigger (SlogInfo "Performing search" [("query", LStr q)]);;
  trigger (Stdout (newline +:+ "=== " +:+ q +:+ " ===" +:+ newline));;
  '(responseText, lastErr) ← streamAttempts (SearchRequest q today) q 0 None 1;
  trigger (Stdout (newline +:+ horizontalRule +:+ newline));;
  now ← trigger TimeNow;
  let duration := now - startTime in
  match lastErr, String.eqb responseText "" with
  | Some err, true =>
      mret (mkSearchResult q "" "" false "Stream search failed" duration startTime,
            Some ("failed to stream content after retries: " +:+ err))
  | None, true =>
      mret (mkSearchResult q "" "" false "Empty stream response" duration startTime,
            Some "received empty stream response after retries")
  | _, false =>
      mret (mkSearchResult q responseText "" true "" duration startTime, None)
  end.

(** ** The summarizer ([search.go], [generateSummary]) *)

Fixpoint summaryAttempts (req : Request) (attempt : Z) (more : nat)
  : Prog GenResult :=
  r ← trigger (GenerateContent req);
  if answered r then mret r
  else
    (if attempt =? 0 then trigger (TimeSleep (3 * Second)) else mret tt);;
    match more with
    | O => mret r
    | S more' => summaryAttempts req (attempt + 1) more'
    end.

Definition generateSummary (q response : string) : Prog (string * option GoError) :=
  r ← summaryAttempts (SummaryRequest q response) 0 1;
  match r with
  | GenErr err =>
      mret ("", Some ("failed to generate summary after retries: " +:+ err))
  | GenOk result =>
      if String.eqb (Text result) ""
      then mret ("", Some "received empty summary after retries")
      else mret (Text result, None)
  end.

(** ** One query of a batch ([search.go], [processQuery]) *)

Definition summaryFailed : string := "Summary generation failed".

Definition processQuery (q : string) (includeSummary : bool) : Prog SearchResult :=
  startTime ← trigger TimeNow;
  '(searchResult, err) ← performSingleSearch q;
  match err with
  | Some e =>
      now ← trigger TimeNow;
      mret (mkSearchResult q "" "" false e (now - startTime) startTime)
  | None =>
      let result :=
        mkSearchResult q (Response searchResult) "" (Success searchResult) ""
                       (Duration searchResult) startTime in
      if Success result && includeSummary
      then
        '(summary, err) ← generateSummary q (Response result);
        match err with
        | Some _ =>
            mret (mkSearchResult (Query result) (Response result) summaryFailed
                    (Success result) (Error result) (Duration result)
                    (Timestamp result))
        | None =>
            mret (mkSearchResult (Query result) (Response result) summary
                    (Success result) (Error result) (Duration result)
                    (Timestamp result))
        end
      else mret result
  end.

(** ** The single-query branch of [main] ([main.go], [config.go]) *)

(** Where [main] stands after a block: the process has exited with a
    status ([os.Exit], or [return] from [main] with status 0), or it goes
    on with a value. *)
Inductive Flow (A : Type) : Type :=
| Exit (code : Z)
| Continue (a : A).

Arguments Exit {A} code.
Arguments Continue {A} a.

Definition handleError {A : Type} (err : GoError) (context : string)
  : Prog (Flow A) :=
  trigger (SlogError context err);;
  trigger (Stderr ("Error: " +:+ context +:+ ": " +:+ err +:+ newline));;
  mret (Exit 1).

(** The body of [if config.query != "" { ... }] in [main], up to the call
    [result.Output(config.outputJSON)]: [Continue result] is the outcome
    handed to the renderer. *)
Definition mainSingleQuery (config : Config) : Prog (Flow SearchResult) :=
  '(result, err) ←
    (if stream config
     then performSingleSearchStream (query config)
     else performSingleSearch (query config));
  match err with
  | Some e => handleError e "Search failed"
  | None =>
      if stream config
      then if negb (Success result) then mret (Exit 1) else mret (Exit 0)
      else
        if includeSummary config && Success result
        then
          '(summary, err) ← generateSummary (Query result) (Response result);
          match err with
          | Some _ =>
              mret (Continue
                      (mkSearchResult (Query result) (Response result)
                         summaryFailed (Success result) (Error result)
                         (Duration result) (Timestamp result)))
          | None =>
              mret (Continue
                      (mkSearchResult (Query result) (Response result)
                         summary (Success result) (Error result)
                         (Duration result) (Timestamp result)))
          end
        else mret (Continue result)
  end.

(** ** A canned environment *)

(** A scripted backend and a clock: each one-shot call consumes the next
    canned answer, each streaming call the next canned stream; a call
    takes [latency], a sleep takes its duration. *)
Record Canned := mkCanned {
  answers : list GenResult;
  streams : list (list StreamItem);
  clock : Time;
  latency : TimeDuration
}.

Definition canned : Handler Canned :=
  fun X e w =>
    match e in Effect T return T * Canned with
    | TimeNow => (clock w, w)
    | TimeSleep d =>
        (tt, mkCanned (answers w) (streams w) (clock w + d) (latency w))
    | GenerateContent _ =>
        match answers w with
        | [] => (GenErr "no canned answer", w)
        | r :: rest =>
            (r, mkCanned rest (streams w) (clock w + latency w) (latency w))
        end
    | GenerateContentStream _ =>
        match streams w with
        | [] => ([StreamErr "no canned stream"], w)
        | items :: rest =>
            (items, mkCanned (answers w) rest (clock w + latency w) (latency w))
        end
    | SlogInfo _ _ => (tt, w)
    | SlogError _ _ => (tt, w)
    | Stdout _ => (tt, w)
    | Stderr _ => (tt, w)
    end.

Definition text (s : string) : GenResult := GenOk (mkGenResponse 1 s).
Definition chunk (s : string) : StreamItem := StreamChunk (mkGenResponse 1 s).

(** ** The batch orchestrator ([search.go], [processMultipleQueries]) *)

(** [fmt.Sprintf("%d", n)] for an [int]. *)
Definition Itoa (n : Z) : string := NilZero.string_of_int (Z.to_int n).

(** [d.Round(time.Millisecond)]: to the nearest millisecond, halfway
    values away from zero. *)
Definition roundMillisecond (d : TimeDuration) : TimeDuration :=
  Z.sgn d * ((Z.abs d + 500000) / 1000000) * 1000000.

(** [successCount] after the loop over [results]. *)
Fixpoint countSuccess (results : list SearchResult) : Z :=
  match results with
  | [] => 0
  | result :: rest =>
      if Success result then 1 + countSuccess rest else countSuccess rest
  end.

(** The part of [processMultipleQueries] after [wg.Wait()]. *)
Definition collectResults (config : Config) (nqueries : Z) (startTime : Time)
    (results : list SearchResult) : Prog MultiSearchResult :=
  now ← trigger TimeNow;
  let totalTime := now - startTime in
  let successCount := countSuccess results in
  (if verbose config
   then trigger (SlogInfo "Query execution completed"
                   [("total_queries", LInt nqueries);
                    ("successful", LInt successCount);
                    ("total_duration", LDuration (roundMillisecond totalTime))])
   else mret tt);;
  let success := successCount =? nqueries in
  mret (mkMultiSearchResult results totalTime success
          (if negb success
           then "Completed " +:+ Itoa successCount +:+ "/" +:+ Itoa nqueries
                +:+ " queries successfully"
           else "")).

(** A backend call: the effects that are in flight between the moment a
    goroutine issues them and the moment they return. *)
Definition isBackendCall {X : Type} (e : Effect X) : bool :=
  match e with
  | GenerateContent _ | GenerateContentStream _ => true
  | _ => false
  end.

(** Where a worker goroutine [go func(index int, q string) { ... }(i, query)]
    stands. *)
Inductive Goroutine : Type :=
| GAcquire (index : nat) (q : string)
    (** at [sem <- struct{}{}] *)
| GRun (index : nat) (p : Prog SearchResult)
    (** inside [processQuery], [p] left to run; at [results[index] = result]
        once [p] is [Ret result] *)
| GCall (index : nat) {X : Type} (e : Effect X) (k : X -> Prog SearchResult)
    (** inside [processQuery], the backend call [e] in flight *)
| GLog (result : SearchResult)
    (** at [if config.verbose { slog.Info(...) }] *)
| GRelease
    (** at the deferred [<-sem] *)
| GWgDone
    (** at the deferred [wg.Done()] *)
| GExited.

(** A goroutine with a backend call in flight. *)
Definition inCall (gr : Goroutine) : bool :=
  match gr with
  | GCall _ _ _ => true
  | _ => false
  end.

(** A goroutine between its send on [sem] and its receive from it. *)
Definition holdsSlot (gr : Goroutine) : bool :=
  match gr with
  | GRun _ _ | GCall _ _ _ | GLog _ | GRelease => true
  | GAcquire _ _ | GWgDone | GExited => false
  end.

(** A goroutine that has not yet called [wg.Done()]. *)
Definition notDone (gr : Goroutine) : bool :=
  match gr with
  | GExited => false
  | _ => true
  end.

Fixpoint countIf {A : Type} (f : A -> bool) (l : list A) : nat :=
  match l with
  | [] => O
  | x :: l' => if f x then S (countIf f l') else countIf f l'
  end.

(** Where the goroutine running [processMultipleQueries] stands. *)
Inductive MainState : Type :=
| MLoop (i : nat) (rest : list string)
    (** in [for i, query := range queries], [rest] not yet spawned; at
        [wg.Wait()] once [rest] is empty *)
| MWaited.
    (** [wg.Wait()] has returned *)

(** The shared state of one batch: the [results] slice, the number of
    tokens in the channel [sem], the counter of [wg], the goroutines
    spawned so far, and the environment. *)
Record Pool (W : Type) := mkPool {
  results : list SearchResult;
  sem : nat;
  wg : nat;
  goroutines : list Goroutine;
  mainAt : MainState;
  world : W
}.

Arguments mkPool {W}.
Arguments results {W}.
Arguments sem {W}.
Arguments wg {W}.
Arguments goroutines {W}.
Arguments mainAt {W}.
Arguments world {W}.

(** The scheduler's choice: which goroutine takes the next step. *)
Inductive Pick : Type :=
| PMain
| PGo (g : nat).

Section Pool.
Context {W : Type}.
Variable h : Handler W.
Variable config : Config.

(** One step of a worker goroutine, when it can take one: a send on a
    full channel, a receive on an empty one and an exited goroutine
    cannot. *)
Definition stepGoroutine (gr : Goroutine) (s : Pool W)
  : option (Goroutine * Pool W) :=
  match gr with
  | GAcquire index q =>
      if Z.of_nat (sem s) <? workers config
      then Some (GRun index (processQuery q (includeSummary config)),
                 mkPool (results s) (S (sem s)) (wg s) (goroutines s)
                        (mainAt s) (world s))
      else None
  | GRun index (Ret result) =>
      if (index <? length (results s))%nat
      then Some (GLog result,
                 mkPool (<[index := result]> (results s)) (sem s) (wg s)
                        (goroutines s) (mainAt s) (world s))
      else None
  | GRun index (Vis e k) =>
      if isBackendCall e
      then Some (GCall index e k, s)
      else let '(x, w') := h _ e (world s) in
           Some (GRun index (k x),
                 mkPool (results s) (sem s) (wg s) (goroutines s)
                        (mainAt s) w')
  | GCall index e k =>
      let '(x, w') := h _ e (world s) in
      Some (GRun index (k x),
            mkPool (results s) (sem s) (wg s) (goroutines s) (mainAt s) w')
  | GLog result =>
      if verbose config
      then let '(_, w') :=
             h _ (SlogInfo "Query completed"
                    [("query", LStr (Query result));
                     ("success", LBool (Success result));
                     ("duration", LDuration (Duration result))])
               (world s) in
           Some (GRelease,
                 mkPool (results s) (sem s) (wg s) (goroutines s)
                        (mainAt s) w')
      else Some (GRelease, s)
  | GRelease =>
      match sem s with
      | O => None
      | S n =>
          Some (GWgDone,
                mkPool (results s) n (wg s) (goroutines s) (mainAt s)
                       (world s))
      end
  | GWgDone =>
      match wg s with
      | O => None
      | S n =>
          Some (GExited,
                mkPool (results s) (sem s) n (goroutines s) (mainAt s)
                       (world s))
      end
  | GExited => None
  end.

(** One step of the main goroutine: spawn the next worker, or return
    from [wg.Wait()] when the counter is zero. *)
Definition stepMain (s : Pool W) : option (Pool W) :=
  match mainAt s with
  | MLoop i (q :: rest) =>
      Some (mkPool (results s) (sem s) (S (wg s))
                   (goroutines s ++ [GAcquire i q]) (MLoop (S i) rest)
                   (world s))
  | MLoop i [] =>
      match wg s with
      | O => Some (mkPool (results s) (sem s) (wg s) (goroutines s) MWaited
                          (world s))
      | S _ => None
      end
  | MWaited => None
  end.

Definition step (pick : Pick) (s : Pool W) : option (Pool W) :=
  match pick with
  | PMain => stepMain s
  | PGo g =>
      match goroutines s !! g with
      | Some gr =>
          match stepGoroutine gr s with
          | Some (gr', s') =>
              Some (mkPool (results s') (sem s') (wg s')
                           (<[g := gr']> (goroutines s')) (mainAt s')
                           (world s'))
          | None => None
          end
      | None => None
      end
  end.

(** The state after the steps of a schedule, if each can be taken. *)
Fixpoint exec (sched : list Pick) (s : Pool W) : option (Pool W) :=
  match sched with
  | [] => Some s
  | pick :: sched' =>
      match step pick s with
      | Some s' => exec sched' s'
      | None => None
      end
  end.

(** The state at [for i, query := range queries]. *)
Definition initPool (qs : list string) (w : W) : Pool W :=
  mkPool (replicate (length qs) zeroSearchResult) 0 0 [] (MLoop 0 qs) w.

(** The number of backend calls in flight. *)
Definition inFlight (s : Pool W) : nat :=
  countIf inCall (goroutines s).

(** [processMultipleQueries] under the interleaving [sched]: the batch
    outcome when [sched] is a complete run, one that ends with
    [wg.Wait()] returning.  [make(chan struct{}, n)] panics for a
    negative [n]. *)
Definition processMultipleQueries (sched : list Pick) (qs : list string)
    (w : W) : option (MultiSearchResult * W) :=
  let '(startTime, w0) := h _ TimeNow w in
  if workers config <? 0 then None
  else
    match exec sched (initPool qs w0) with
    | Some s =>
        match mainAt s with
        | MWaited =>
            Some (run h (collectResults config (Z.of_nat (length qs))
                           startTime (results s)) (world s))
        | MLoop _ _ => None
        end
    | None => None
    end.
End Pool.

(** ** Configuration ([config.go], [validateConfig] and [parseFlags]) *)

Definition validateConfig (config : Config) : option GoError :=
  let hasQuery := negb (String.eqb (query config) "") in
  let hasQueries := (0 <? length (queries config))%nat in
  if negb hasQuery && negb hasQueries
  then Some "search query is required (use -query, -q, or positional argument)"
  else if hasQuery && hasQueries
  then Some "cannot use both -query and -q flags simultaneously"
  else if (workers config <? 1) || (5 <? workers config)
  then Some "workers must be between 1 and 5"
  else if stream config && hasQueries
  then Some "streaming mode is not supported for multiple queries (use single query only)"
  else None.

(** One occurrence of a flag on the command line, with the value the
    [flag] package hands to the variable or function registered for it. *)
Inductive FlagOccurrence : Type :=
| FlagQuery (value : string)
| FlagJSON (value : bool)
| FlagVerbose (value : bool)
| FlagV (value : bool)
| FlagStream (value : bool)
| FlagWorkers (value : Z)
| FlagTimeout (value : TimeDuration)
| FlagIncludeSummary (value : string)
| FlagQ (value : string).

(** [&Config{}] with the defaults the flags are registered with. *)
Definition defaultConfig : Config :=
  mkConfig "" [] false false false 3 (180 * Second) false false.

(** What [flag.Parse] does for one occurrence: it stores the value in the
    registered variable, or calls the registered function. *)
Definition setFlag (config : Config) (f : FlagOccurrence) : Config :=
  match f with
  | FlagQuery value =>
      mkConfig value (queries config) (outputJSON config) (verbose config)
        (stream config) (workers config) (timeout config)
        (includeSummary config) (includeSummaryExplicit config)
  | FlagJSON value =>
      mkConfig (query config) (queries config) value (verbose config)
        (stream config) (workers config) (timeout config)
        (includeSummary config) (includeSummaryExplicit config)
  | FlagVerbose value | FlagV value =>
      mkConfig (query config) (queries config) (outputJSON config) value
        (stream config) (workers config) (timeout config)
        (includeSummary config) (includeSummaryExplicit config)
  | FlagStream value =>
      mkConfig (query config) (queries config) (outputJSON config)
        (verbose config) value (workers config) (timeout config)
        (includeSummary config) (includeSummaryExplicit config)
  | FlagWorkers value =>
      mkConfig (query config) (queries config) (outputJSON config)
        (verbose config) (stream config) value (timeout config)
        (includeSummary config) (includeSummaryExplicit config)
  | FlagTimeout value =>
      mkConfig (query config) (queries config) (outputJSON config)
        (verbose config) (stream config) (workers config) value
        (includeSummary config) (includeSummaryExplicit config)
  | FlagIncludeSummary value =>
      mkConfig (query config) (queries config) (outputJSON config)
        (verbose config) (stream config) (workers config) (timeout config)
        (String.eqb value "true" || String.eqb value "") true
  | FlagQ value =>
      mkConfig (query config) (queries config ++ [value]) (outputJSON config)
        (verbose config) (stream config) (workers config) (timeout config)
        (includeSummary config) (includeSummaryExplicit config)
  end.

(** [totalQueries] in [parseFlags]. *)
Definition totalQueries (config : Config) : Z :=
  (if negb (String.eqb (query config) "") then 1 else 0)
  + Z.of_nat (length (queries config)).

(** The block "Handle positional argument" of [parseFlags]; [args] is
    [flag.Args()]. *)
Definition usePositional (config : Config) (args : list string) : Config :=
  match args with
  | arg :: _ =>
      if String.eqb (query config) "" && (length (queries config) =? 0)%nat
      then mkConfig arg (queries config) (outputJSON config)
             (verbose config) (stream config) (workers config)
             (timeout config) (includeSummary config)
             (includeSummaryExplicit config)
      else config
  | [] => config
  end.

(** The block "Set smart defaults for includeSummary" of [parseFlags]. *)
Definition defaultSummary (config : Config) : Config :=
  if negb (includeSummaryExplicit config)
  then
    if totalQueries config =? 1
    then mkConfig (query config) (queries config) (outputJSON config)
           (verbose config) (stream config) (workers config)
           (timeout config) false (includeSummaryExplicit config)
    else if 1 <? totalQueries config
    then mkConfig (query config) (queries config) (outputJSON config)
           (verbose config) (stream config) (workers config)
           (timeout config) true (includeSummaryExplicit config)
    else config
  else config.

(** [parseFlags], for the flag occurrences of the command line in order
    and the positional arguments [flag.Args()] that follow them. *)
Definition parseFlags (flags : list FlagOccurrence) (args : list string)
  : Config :=
  defaultSummary (usePositional (fold_left setFlag flags defaultConfig) args).

(** ** Rendering ([search.go], the two [Output] methods) *)

(** The lines of the overview block, one per outcome. *)
Fixpoint printSummaryLines (results : list SearchResult) : Prog unit :=
  match results with
  | [] => mret tt
  | result :: rest =>
      (if Success result
       then
         let summary :=
           if String.eqb (Summary result) ""
           then "No summary available"
           else Summary result in
         trigger (Stdout ("✓ " +:+ Query result +:+ ": " +:+ summary
                          +:+ newline))
       else
         trigger (Stdout ("✗ " +:+ Query result +:+ ": " +:+ Error result
                          +:+ newline)));;
      printSummaryLines rest
  end.

(** The detailed sections, one per outcome; [many] is
    [len(m.Results) > 1]. *)
Fixpoint printDetails (many : bool) (results : list SearchResult)
  : Prog unit :=
  match results with
  | [] => mret tt
  | result :: rest =>
      (if many
       then trigger (Stdout ("=== " +:+ Query result +:+ " ===" +:+ newline))
       else mret tt);;
      (if Success result
       then trigger (Stdout (Response result +:+ newline))
       else trigger (Stdout ("Status: FAILED - " +:+ Error result
                             +:+ newline)));;
      trigger (Stdout newline);;
      printDetails many rest
  end.

Section Render.
(** [encoder.Encode] of [encoding/json] on standard output, for one
    outcome and for a batch: what it writes and the error it returns are
    the library's. *)
Variable encodeSearchResult : SearchResult -> Prog (option GoError).
Variable encodeMultiSearchResult : MultiSearchResult -> Prog (option GoError).

(** [func (r *SearchResult) Output(outputJSON bool) error] *)
Definition SearchResult_Output (r : SearchResult) (outputJSON : bool)
  : Prog (option GoError) :=
  if outputJSON then encodeSearchResult r
  else if negb (Success r)
  then
    trigger (Stderr ("Search failed: " +:+ Error r +:+ newline));;
    mret (Some "search failed")
  else
    (if negb (String.eqb (Summary r) "")
     then
       trigger (Stdout ("## SUMMARY" +:+ newline +:+ Summary r +:+ newline
                        +:+ newline));;
       trigger (Stdout ("## DETAILED RESPONSE" +:+ newline))
     else mret tt);;
    trigger (Stdout (Response r +:+ newline));;
    mret None.

(** [func (m *MultiSearchResult) Output(outputJSON, isStream,
    includeSummary bool) error] *)
Definition MultiSearchResult_Output (m : MultiSearchResult)
    (outputJSON isStream includeSummary : bool) : Prog (option GoError) :=
  if outputJSON then encodeMultiSearchResult m
  else if isStream
  then
    let successful := countSuccess (Results m) in
    trigger (Stdout (newline +:+ "🏁 COMPLETED: " +:+ Itoa successful +:+ "/"
                     +:+ Itoa (Z.of_nat (length (Results m)))
                     +:+ " queries" +:+ newline));;
    mret None
  else
    let successful := countSuccess (Results m) in
    (if includeSummary
     then
       trigger (Stdout ("## SEARCH RESULTS" +:+ newline));;
       trigger (Stdout (Itoa successful +:+ "/"
                        +:+ Itoa (Z.of_nat (length (Results m)))
                        +:+ " queries completed successfully, here is a summary for each query:"
                        +:+ newline +:+ newline));;
       printSummaryLines (Results m);;
       trigger (Stdout newline);;
       trigger (Stdout ("## DETAILED RESPONSES" +:+ newline +:+ newline))
     else mret tt);;
    printDetails (1 <? length (Results m))%nat (Results m);;
    mret None.

(** The body of [if config.query != "" { ... }] in [main], to the exit
    status of the process. *)
Definition mainSingle (config : Config) : Prog Z :=
  flow ← mainSingleQuery config;
  match flow with
  | Exit code => mret code
  | Continue result =>
      err ← SearchResult_Output result (outputJSON config);
      match err with
      | Some _ => mret 1
      | None => mret 0
      end
  end.

(** The body of [if len(config.queries) > 0 { ... }] in [main], under the
    interleaving [sched] of the batch, to the exit status of the process.
    [processMultipleQueries] never returns an error. *)
Definition mainMultiple {W : Type} (h : Handler W) (sched : list Pick)
    (config : Config) (w : W) : option (Z * W) :=
  match processMultipleQueries h config sched (queries config) w with
  | Some (multiResult, w1) =>
      let '(err, w2) :=
        run h (MultiSearchResult_Output multiResult (outputJSON config)
                 (stream config) (includeSummary config)) w1 in
      match err with
      | Some _ => Some (1, w2)
      | None => if negb (MSuccess multiResult) then Some (1, w2) else Some (0, w2)
      end
  | None => None
  end.
End Render.

(** ** Specification vocabulary *)

(** The paths of a program: [Path p tr a] when [p] returns [a] after
    performing the effects of [tr] and receiving the answers of [tr]. *)
Fixpoint Path {A : Type} (p : Prog A) (tr : list Event) (a : A) : Prop :=
  match p with
  | Ret a' => tr = [] /\ a = a'
  | Vis e k => exists x tr', tr = Ev e x :: tr' /\ Path (k x) tr' a
  end.

(** An attempt that errored or returned empty text. *)
Definition failedAttempt (r : GenResult) : Prop :=
  match r with
  | GenErr _ => True
  | GenOk response => Text response = ""
  end.

(** The paths of [performSingleSearch]: the answers of its backend calls,
    its clock readings, and what it returns. *)
Inductive SearchRun (q : string)
  : list GenResult -> list Time -> SearchResult * option GoError -> Prop :=
| SearchRun_first (t0 t1 t2 : Time) (response : GenResponse) :
    Text response <> "" ->
    SearchRun q [GenOk response] [t0; t1; t2]
      (mkSearchResult q (Text response) "" true "" (t2 - t0) t0, None)
| SearchRun_second (t0 t1 t2 : Time) (r1 : GenResult) (response : GenResponse) :
    failedAttempt r1 ->
    Text response <> "" ->
    SearchRun q [r1; GenOk response] [t0; t1; t2]
      (mkSearchResult q (Text response) "" true "" (t2 - t0) t0, None)
| SearchRun_error (t0 t1 t2 : Time) (r1 : GenResult) (err : GoError) :
    failedAttempt r1 ->
    SearchRun q [r1; GenErr err] [t0; t1; t2]
      (mkSearchResult q "" "" false "Search failed" (t2 - t0) t0,
       Some ("failed to generate content after retries: " +:+ err))
| SearchRun_empty (t0 t1 t2 : Time) (r1 : GenResult) (response : GenResponse) :
    failedAttempt r1 ->
    Text response = "" ->
    SearchRun q [r1; GenOk response] [t0; t1; t2]
      (mkSearchResult q "" "" false "Empty response" (t2 - t0) t0,
       Some "received empty response after retries").

(** What one streaming attempt leaves in [responseText], and the error it
    broke on, if any: the loop of [consumeStream] without its output. *)
Fixpoint accumulate (items : list StreamItem) (responseText : string)
  : string * option GoError :=
  match items with
  | [] => (responseText, None)
  | StreamErr err :: _ => (responseText, Some err)
  | StreamChunk response :: rest =>
      if (0 <? Candidates response)%nat
      then accumulate rest (responseText +:+ Text response)
      else accumulate rest responseText
  end.

Definition attemptText (items : list StreamItem) : string :=
  (accumulate items "").1.

Definition attemptError (items : list StreamItem) : option GoError :=
  (accumulate items "").2.

(** The success criterion of a streaming attempt: no error and non-empty
    accumulated text. *)
Definition streamSucceeded (items : list StreamItem) : Prop :=
  attemptError items = None /\ attemptText items <> "".

(** The paths of [performSingleSearchStream]: the streams its backend calls
    yielded, its clock readings, and what it returns. *)
Inductive StreamRun (q : string)
  : list (list StreamItem) -> list Time -> SearchResult * option GoError -> Prop :=
| StreamRun_first (t0 t1 t2 : Time) (s1 : list StreamItem) :
    streamSucceeded s1 ->
    StreamRun q [s1] [t0; t1; t2]
      (mkSearchResult q (attemptText s1) "" true "" (t2 - t0) t0, None)
| StreamRun_second (t0 t1 t2 : Time) (s1 s2 : list StreamItem) :
    ~ streamSucceeded s1 ->
    attemptText s2 <> "" ->
    StreamRun q [s1; s2] [t0; t1; t2]
      (mkSearchResult q (attemptText s2) "" true "" (t2 - t0) t0, None)
| StreamRun_error (t0 t1 t2 : Time) (s1 s2 : list StreamItem) (err : GoError) :
    ~ streamSucceeded s1 ->
    attemptText s2 = "" ->
    match attemptError s2 with
    | Some e => Some e
    | None => attemptError s1
    end = Some err ->
    StreamRun q [s1; s2] [t0; t1; t2]
      (mkSearchResult q "" "" false "Stream search failed" (t2 - t0) t0,
       Some ("failed to stream content after retries: " +:+ err))
| StreamRun_empty (t0 t1 t2 : Time) (s1 s2 : list StreamItem) :
    ~ streamSucceeded s1 ->
    attemptText s2 = "" ->
    attemptError s1 = None ->
    attemptError s2 = None ->
    StreamRun q [s1; s2] [t0; t1; t2]
      (mkSearchResult q "" "" false "Empty stream response" (t2 - t0) t0,
       Some "received empty stream response after retries").

(** What a loop of two attempts can do: one call that is answered, or a
    failed call and a second one whose answer the loop leaves behind. *)
Definition twoAttempts (tr : list Event) (r : GenResult) : Prop :=
  (generate_calls tr = [r] /\ ~ failedAttempt r) \/
  (exists r1, generate_calls tr = [r1; r] /\ failedAttempt r1).

(** The invariant of an outcome: a successful one carries an answer and
    no failure reason, a failed one a failure reason and no answer. *)
Definition wellFormed (r : SearchResult) : Prop :=
  (Success r = true /\ Response r <> "" /\ Error r = "") \/
  (Success r = false /\ Error r <> "" /\ Response r = "").

(** Both attempts were made and both failed. *)
Definition exhausted (calls : list GenResult) : Prop :=
  exists r1 r2, calls = [r1; r2] /\ failedAttempt r1 /\ failedAttempt r2.

(** The short fixed failure reason for the failure mode of an attempt. *)
Definition fixedReason (r : GenResult) : string :=
  match r with
  | GenErr _ => "Search failed"
  | GenOk _ => "Empty response"
  end.

(** The message of the error [performSingleSearch] returns for the failure
    mode of an attempt. *)
Definition errorMessage (r : GenResult) : string :=
  match r with
  | GenErr err => "failed to generate content after retries: " +:+ err
  | GenOk _ => "received empty response after retries"
  end.

(** An outcome recorded after both attempts failed carries the short
    fixed reason of the last failure. *)
Definition fixedFailure (calls : list GenResult) (r : SearchResult) : Prop :=
  forall r1 r2,
    calls = [r1; r2] -> failedAttempt r1 -> failedAttempt r2 ->
    Success r = false /\ Response r = "" /\ Error r = fixedReason r2.

(** [contains needle hay]: [needle] occurs in [hay]. *)
Fixpoint contains (needle hay : string) : bool :=
  if String.prefix needle hay then true
  else match hay with
       | EmptyString => false
       | String _ hay' => contains needle hay'
       end.



(** What an executor hands back together with its error: the query, the
    start time and the elapsed time between the first and the last clock
    reading. *)
Definition populated (q : string) (tr : list Event) (r : SearchResult) : Prop :=
  Query r = q /\
  exists t0 t1 t2,
    clock_readings tr = [t0; t1; t2] /\
    Timestamp r = t0 /\ Duration r = t2 - t0.


(** An executor signals failure through its error exactly when its
    outcome records failure, and the outcome it hands back is populated
    and, with the error, carries a failure reason. *)
Definition failureReported (q : string) (tr : list Event)
    (out : SearchResult * option GoError) : Prop :=
  (out.2 <> None <-> Success out.1 = false) /\
  populated q tr out.1 /\
  (out.2 <> None -> Error out.1 <> "").

(** What the worker spawned for position [j], with query [q], may be
    doing: it carries its own index and query; whatever its run of
    [processQuery] returns is a well-formed outcome for [q]; and once it is
    past [results[index] = result], slot [j] holds such an outcome. *)
Definition goroutineOk (results : list SearchResult) (j : nat) (q : string)
    (gr : Goroutine) : Prop :=
  match gr with
  | GAcquire index q' => index = j /\ q' = q
  | GRun index p =>
      index = j /\
      forall tr r, Path p tr r -> Query r = q /\ wellFormed r
  | GCall index e k =>
      index = j /\ isBackendCall e = true /\
      forall x tr r, Path (k x) tr r -> Query r = q /\ wellFormed r
  | GLog _ | GRelease | GWgDone | GExited =>
      exists r, results !! j = Some r /\ Query r = q /\ wellFormed r
  end.

(** What the main goroutine has done: spawned the first [i] workers, in
    order; [wg.Wait()] returns only once every worker has exited. *)
Definition mainOk (qs : list string) (s_goroutines : list Goroutine)
    (s_wg : nat) (m : MainState) : Prop :=
  match m with
  | MLoop i rest => rest = drop i qs /\ length s_goroutines = i
  | MWaited => length s_goroutines = length qs /\ s_wg = O
  end.

(** The invariant of the pool for the batch [qs]. *)
Record PoolInv {W : Type} (config : Config) (qs : list string) (s : Pool W)
  : Prop := mkPoolInv {
  inv_results : length (results s) = length qs;
  inv_main : mainOk qs (goroutines s) (wg s) (mainAt s);
  inv_goroutines :
    forall j gr,
      goroutines s !! j = Some gr ->
      exists q, qs !! j = Some q /\ goroutineOk (results s) j q gr;
  inv_sem : sem s = countIf holdsSlot (goroutines s);
  inv_wg : wg s = countIf notDone (goroutines s);
  inv_cap : sem s = O \/ Z.of_nat (sem s) <= workers config
}.

(** Canned environments for the examples below. *)
Definition cannedAnswers (rs : list GenResult) : Canned :=
  mkCanned rs [] 100 7.

Definition cannedStreams (ss : list (list StreamItem)) : Canned :=
  mkCanned [] ss 100 7.

(** Goroutine [g] can run to its end from [s], whatever the others do
    meanwhile being left as it is. *)
Definition Finishes {W : Type} (h : Handler W) (config : Config)
    (s : Pool W) (g : nat) : Prop :=
  exists sched s',
    exec h config sched s = Some s' /\
    goroutines s' = <[g := GExited]> (goroutines s) /\
    mainAt s' = mainAt s.

(** A goroutine past its send on [sem] and not yet exited. *)
Definition underWay (gr : Goroutine) : bool :=
  match gr with
  | GAcquire _ _ | GExited => false
  | _ => true
  end.

(** What is left to do in a batch, as a number that every completed
    worker and every spawn makes smaller. *)
Definition remaining {W : Type} (s : Pool W) : nat :=
  (countIf notDone (goroutines s)
   + match mainAt s with
     | MLoop _ rest => 2 * length rest + 1
     | MWaited => 0
     end)%nat.

(** A batch of two queries on two workers.  In [batchSchedule] both
    workers are spawned, worker 1 takes its slot first and runs to its end,
    then worker 0 does, then [wg.Wait()] returns: the workers complete in
    the reverse of the input order.  In [busySchedule] both workers have
    their backend call in flight. *)
Definition batchQueries : list string := ["Go"; "Python"].

Definition batchConfig : Config :=
  mkConfig "" batchQueries false true false 2 (180 * Second) true false.

Definition batchWorld : Canned :=
  cannedAnswers [text "py"; text "short py"; text ""; text ""].

Definition batchSchedule : list Pick :=
  [PMain; PMain; PGo 1; PGo 0]
  ++ repeat (PGo 1) 13 ++ repeat (PGo 0) 16 ++ [PMain].

Definition busySchedule : list Pick :=
  [PMain; PGo 0; PMain; PGo 1]
  ++ repeat (PGo 0) 5 ++ repeat (PGo 1) 5.

Definition batchOutcome : MultiSearchResult :=
  Eval vm_compute in
    match processMultipleQueries canned batchConfig batchSchedule batchQueries
            batchWorld with
    | Some (mr, _) => mr
    | None => mkMultiSearchResult [] 0 false ""
    end.

Definition batchEnd : Canned :=
  Eval vm_compute in
    match processMultipleQueries canned batchConfig batchSchedule batchQueries
            batchWorld with
    | Some (_, w) => w
    | None => batchWorld
    end.

(** ** More of a trace *)

(** The requests of the backend calls in a trace, one-shot and streaming,
    in order. *)
Definition request_of (ev : Event) : option Request :=
  match ev with
  | @Ev X e _ =>
      match e with
      | GenerateContent req | GenerateContentStream req => Some req
      | _ => None
      end
  end.

Definition backend_requests (tr : list Event) : list Request :=
  omap request_of tr.

(** The rhythm of a trace: its backend calls and its sleeps, in order. *)
Inductive Beat : Type :=
| Call
| Pause (d : TimeDuration).

Definition beat_of (ev : Event) : option Beat :=
  match ev with
  | @Ev X e _ =>
      match e with
      | GenerateContent _ | GenerateContentStream _ => Some Call
      | TimeSleep d => Some (Pause d)
      | _ => None
      end
  end.

Definition pace (tr : list Event) : list Beat := omap beat_of tr.

(** What a trace writes to standard output. *)
Definition stdout_of (ev : Event) : option string :=
  match ev with
  | @Ev X e _ =>
      match e with
      | Stdout s => Some s
      | _ => None
      end
  end.

Definition stdout (tr : list Event) : list string := omap stdout_of tr.

(** ** The logger ([config.go], [setupLogger]) *)

(** The levels of [log/slog] the program logs at. *)
Inductive LogLevel : Type :=
| LevelInfo
| LevelError.

(** [setupLogger], by the level of the text handler it installs on
    [os.Stderr] as the default logger: Info with [-verbose], Error
    without. *)
Definition setupLogger (verbose : bool) : LogLevel :=
  if verbose then LevelInfo else LevelError.

(** What reaches standard error: a text written with
    [fmt.Fprintf(os.Stderr, ...)], or a record written by the logger,
    with its level, message and attributes. *)
Inductive ErrWrite : Type :=
| ErrText (s : string)
| ErrRecord (level : LogLevel) (msg : string)
    (attrs : list (string * LogValue)).

(** What an event writes to standard error when the logger has level
    [level]: the record of [slog.Error] always, the record of [slog.Info]
    at level Info only. *)
Definition stderr_of (level : LogLevel) (ev : Event) : option ErrWrite :=
  match ev with
  | @Ev X e _ =>
      match e with
      | Stderr s => Some (ErrText s)
      | SlogError msg err =>
          Some (ErrRecord LevelError msg [("error", LStr err)])
      | SlogInfo msg attrs =>
          match level with
          | LevelInfo => Some (ErrRecord LevelInfo msg attrs)
          | LevelError => None
          end
      | _ => None
      end
  end.

Definition stderr (level : LogLevel) (tr : list Event) : list ErrWrite :=
  omap (stderr_of level) tr.

(** The records an executor logs for the query [q], by the number of
    backend calls it made: "Performing search", and the record [msg] of
    the retry when there was a second call. *)
Definition executorLog (level : LogLevel) (msg q : string) (calls : nat)
  : list ErrWrite :=
  match level with
  | LevelError => []
  | LevelInfo =>
      ErrRecord LevelInfo "Performing search" [("query", LStr q)]
      :: (if (1 <? calls)%nat
          then [ErrRecord LevelInfo msg
                  [("query", LStr q); ("attempt", LInt 2)]]
          else [])
  end.

(** What [handleError] writes to standard error. *)
Definition fatalLines (context : string) (err : GoError) : list ErrWrite :=
  [ErrRecord LevelError context [("error", LStr err)];
   ErrText ("Error: " +:+ context +:+ ": " +:+ err +:+ newline)].

(** The chunks one streaming attempt echoes, in order: those of the
    responses with a candidate, up to the first error. *)
Fixpoint echoed (items : list StreamItem) : list string :=
  match items with
  | [] => []
  | StreamErr _ :: _ => []
  | StreamChunk response :: rest =>
      if (0 <? Candidates response)%nat
      then Text response :: echoed rest
      else echoed rest
  end.

Definition concatStrings (l : list string) : string :=
  fold_right String.append "" l.

(** The events between the two attempts of the non-streaming executor. *)
Definition searchRetry (q : string) : list Event :=
  [Ev (SlogInfo "Retrying search request"
         [("query", LStr q); ("attempt", LInt 2)]) tt;
   Ev (TimeSleep (3 * Second)) tt].

(** The trace of a loop of two attempts: one answered call, or a failed
    call, the events [between], and a second call. *)
Definition retryTrace (req : Request) (between : list Event)
    (tr : list Event) (r : GenResult) : Prop :=
  (tr = [Ev (GenerateContent req) r] /\ ~ failedAttempt r) \/
  (exists r1,
     tr = [Ev (GenerateContent req) r1] ++ between
          ++ [Ev (GenerateContent req) r] /\
     failedAttempt r1).

(** The events between the two attempts of the streaming executor. *)
Definition streamRetry (q : string) : list Event :=
  [Ev (SlogInfo "Retrying stream search request"
         [("query", LStr q); ("attempt", LInt 2)]) tt;
   Ev (Stdout (newline +:+ "[Retrying...]" +:+ newline)) tt;
   Ev (TimeSleep (3 * Second)) tt].

(** The events of one streaming attempt: the call, then the echo of its
    chunks. *)
Definition streamAttempt (req : Request) (items : list StreamItem)
  : list Event :=
  Ev (GenerateContentStream req) items
  :: map (fun c => Ev (Stdout c) tt) (echoed items).

(** An occurrence of [-include-summary]. *)
Definition isIncludeSummary (f : FlagOccurrence) : bool :=
  match f with
  | FlagIncludeSummary _ => true
  | _ => false
  end.

(** What the streaming executor prints around the chunks. *)
Definition streamBanner (q : string) : string :=
  newline +:+ "=== " +:+ q +:+ " ===" +:+ newline.

Definition retryNotice : string := newline +:+ "[Retrying...]" +:+ newline.

Definition streamRule : string := newline +:+ horizontalRule +:+ newline.

(** The rhythm of a loop of two attempts: one call, or two calls three
    seconds apart. *)
Definition retryPace (p : list Beat) : Prop :=
  p = [Call] \/ p = [Call; Pause (3 * Second); Call].

(** What [generateSummary] returns for the answer of its last call. *)
Definition summaryResult (r : GenResult) : string * option GoError :=
  match r with
  | GenErr err =>
      ("", Some ("failed to generate summary after retries: " +:+ err))
  | GenOk result =>
      if String.eqb (Text result) ""
      then ("", Some "received empty summary after retries")
      else (Text result, None)
  end.

(** The requests of a loop of two attempts: the same request, once or
    twice. *)
Definition onceOrTwice (req : Request) (l : list Request) : Prop :=
  l = [req] \/ l = [req; req].

(** The requests [processQuery] sends to the summarizer for the outcome
    [r]: for a successful outcome with summaries requested the query and
    the answer of [r], once or twice; none otherwise. *)
Definition summaryRequests (q : string) (b : bool) (r : SearchResult)
    (l : list Request) : Prop :=
  if Success r && b
  then onceOrTwice (SummaryRequest q (Response r)) l
  else l = [].

(** The rhythm of the summarizer inside [processQuery]. *)
Definition summaryPace (b : bool) (r : SearchResult) (p : list Beat) : Prop :=
  if Success r && b then retryPace p else p = [].

(** What worker [j] yields: whatever its run of [processQuery] returns is
    an outcome of [processQuery] on the query [q] of its position, and
    once it has stored its result, slot [j] holds such an outcome. *)
Definition yields (config : Config) (results : list SearchResult) (j : nat)
    (q : string) (gr : Goroutine) : Prop :=
  match gr with
  | GAcquire _ _ => True
  | GRun _ p =>
      forall tr r,
        Path p tr r ->
        exists tr0, Path (processQuery q (includeSummary config)) tr0 r
  | GCall _ _ k =>
      forall x tr r,
        Path (k x) tr r ->
        exists tr0, Path (processQuery q (includeSummary config)) tr0 r
  | GLog _ | GRelease | GWgDone | GExited =>
      exists r tr0,
        results !! j = Some r /\
        Path (processQuery q (includeSummary config)) tr0 r
  end.

Definition SlotsInv {W : Type} (config : Config) (qs : list string)
    (s : Pool W) : Prop :=
  forall j gr q,
    goroutines s !! j = Some gr -> qs !! j = Some q ->
    yields config (results s) j q gr.

(** A summary is present exactly for a successful outcome with summaries
    requested. *)
Definition summaryPresent (b : bool) (r : SearchResult) : Prop :=
  Summary r <> "" <-> Success r = true /\ b = true.

(** A worker blocked at its send on [sem]. *)
Definition isAcquire (gr : Goroutine) : bool :=
  match gr with
  | GAcquire _ _ => true
  | _ => false
  end.

(** A pool in which nothing but spawning can happen: every worker waits
    at its send on [sem], and [wg.Wait()] cannot return. *)
Definition allBlocked {W : Type} (s : Pool W) : Prop :=
  forallb isAcquire (goroutines s) = true /\
  wg s = length (goroutines s) /\
  match mainAt s with
  | MLoop _ rest => rest <> [] \/ goroutines s <> []
  | MWaited => False
  end.

(** The pool at the end of the run [batchSchedule]. *)
Definition batchPool : Pool Canned :=
  Eval vm_compute in
    match exec canned batchConfig batchSchedule
            (initPool batchQueries (canned _ TimeNow batchWorld).2) with
    | Some s => s
    | None => initPool batchQueries batchWorld
    end.

(** ** What the renderers write *)

(** The events of writing the strings of [l] to standard output. *)
Definition printed (l : list string) : list Event :=
  map (fun s => Ev (Stdout s) tt) l.

(** The line of one outcome in the overview block of a batch. *)
Definition summaryLine (r : SearchResult) : string :=
  if Success r
  then "✓ " +:+ Query r +:+ ": "
       +:+ (if String.eqb (Summary r) "" then "No summary available"
            else Summary r)
       +:+ newline
  else "✗ " +:+ Query r +:+ ": " +:+ Error r +:+ newline.

(** The overview block of a batch rendered with summaries. *)
Definition overviewLines (results : list SearchResult) : list string :=
  ["## SEARCH RESULTS" +:+ newline;
   Itoa (countSuccess results) +:+ "/" +:+ Itoa (Z.of_nat (length results))
   +:+ " queries completed successfully, here is a summary for each query:"
   +:+ newline +:+ newline]
  ++ map summaryLine results
  ++ [newline; "## DETAILED RESPONSES" +:+ newline +:+ newline].

(** The detailed section of one outcome. *)
Definition detailLines (many : bool) (r : SearchResult) : list string :=
  (if many then ["=== " +:+ Query r +:+ " ===" +:+ newline] else [])
  ++ [if Success r then Response r +:+ newline
      else "Status: FAILED - " +:+ Error r +:+ newline;
      newline].

(** The completion line of a batch rendered in stream mode. *)
Definition completionLine (results : list SearchResult) : string :=
  newline +:+ "🏁 COMPLETED: " +:+ Itoa (countSuccess results) +:+ "/"
  +:+ Itoa (Z.of_nat (length results)) +:+ " queries" +:+ newline.

(** What the renderer of a single outcome prints before the answer. *)
Definition summaryHeader (summary : string) : list string :=
  if String.eqb summary "" then []
  else ["## SUMMARY" +:+ newline +:+ summary +:+ newline +:+ newline;
        "## DETAILED RESPONSE" +:+ newline].

(** What [handleError] leaves in a trace. *)
Definition fatal (context : string) (err : GoError) : list Event :=
  [Ev (SlogError context err) tt;
   Ev (Stderr ("Error: " +:+ context +:+ ": " +:+ err +:+ newline)) tt].

(** An encoder that is never reached, for scenarios in text mode. *)
Definition noEncoder {A : Type} (_ : A) : Prog (option GoError) :=
  Ret None.

(** The exit of the batch [batchSchedule] rendered as text. *)
Definition batchExit : Z * Canned :=
  Eval vm_compute in
    match mainMultiple noEncoder canned batchSchedule batchConfig
            batchWorld with
    | Some out => out
    | None => (2, batchWorld)
    end.

(** A single query with summaries requested, rendered as text, and a
    backend that answers the search and then the summarizer. *)
Definition singleConfig : Config :=
  mkConfig "Go" [] false true false 3 (180 * Second) true true.

Definition singleWorld : Canned :=
  cannedAnswers [text "a language"; text "short"].

(** The same query in stream mode, with a stream that breaks and a second
    one that yields nothing. *)
Definition streamConfig : Config :=
  mkConfig "Go" [] true false true 3 (180 * Second) true true.

Definition streamWorld : Canned :=
  cannedStreams [[chunk "a lang"; StreamErr "reset"]; []].

(** The value an occurrence gives to [-q], to [-workers], and to
    [-verbose] or [-v]. *)
Definition qValue (f : FlagOccurrence) : option string :=
  match f with
  | FlagQ value => Some value
  | _ => None
  end.

Definition workersValue (f : FlagOccurrence) : option Z :=
  match f with
  | FlagWorkers value => Some value
  | _ => None
  end.

Definition verboseValue (f : FlagOccurrence) : option bool :=
  match f with
  | FlagVerbose value | FlagV value => Some value
  | _ => None
  end.

(** A single query rendered as JSON, and a backend that returns empty
    text twice. *)
Definition streamlessConfig : Config :=
  mkConfig "Go" [] true false false 3 (180 * Second) false false.

Definition failingWorld : Canned := cannedAnswers [text ""; text ""].

(** * Properties *)

(** ** Programs and traces *)

Lemma run_bind {W A B : Type} (h : Handler W) (m : Prog A) (f : A -> Prog B)
    (w : W) :
  run h (bind m f) w = run h (f (run h m w).1) (run h m w).2.
Proof.
  revert w.
  induction m as [a | X e k IH]; intros w; simpl; [reflexivity |].
  destruct (h X e w) as [x w']. apply IH.
Qed.

Section Semantics.
Context {W : Type}.
Variable h : Handler W.

Lemma run_traced {A : Type} (p : Prog A) (w : W) (tr : list Event) :
  run (traced h) p (w, tr) =
  ((run h p w).1, ((run h p w).2, tr ++ trace_of h p w)).
Proof.
  unfold trace_of. revert w tr.
  induction p as [a | X e k IH]; intros w tr; simpl.
  - by rewrite app_nil_r.
  - unfold traced at 1 3. simpl. destruct (h X e w) as [x w'].
    rewrite (IH x w' (tr ++ [Ev e x])), (IH x w' [Ev e x]). simpl.
    by rewrite <- app_assoc.
Qed.

Lemma trace_of_vis {A X : Type} (e : Effect X) (k : X -> Prog A) (w : W) :
  trace_of h (Vis e k) w =
  Ev e (h X e w).1 :: trace_of h (k (h X e w).1) (h X e w).2.
Proof.
  unfold trace_of. simpl. unfold traced at 1. simpl.
  destruct (h X e w) as [x w']. simpl. by rewrite run_traced.
Qed.

Lemma trace_of_bind {A B : Type} (m : Prog A) (f : A -> Prog B) (w : W) :
  trace_of h (bind m f) w =
  trace_of h m w ++ trace_of h (f (run h m w).1) (run h m w).2.
Proof.
  unfold trace_of at 1. rewrite run_bind, !run_traced. simpl.
  by rewrite run_traced.
Qed.
End Semantics.

(** Every run follows a path of the program. *)
Lemma run_Path {W A : Type} (h : Handler W) (p : Prog A) (w : W) :
  Path p (trace_of h p w) (run h p w).1.
Proof.
  revert w. induction p as [a | X e k IH]; intros w.
  - by split.
  - rewrite trace_of_vis. simpl. destruct (h X e w) as [x w']. simpl.
    exists x, (trace_of h (k x) w'). split; [reflexivity | apply IH].
Qed.

(** The paths of [bind m f]: a path of [m], then a path of [f] at its
    result. *)
Lemma Path_bind {A B : Type} (m : Prog A) (f : A -> Prog B)
    (tr : list Event) (b : B) :
  Path (bind m f) tr b <->
  exists a tr1 tr2, tr = tr1 ++ tr2 /\ Path m tr1 a /\ Path (f a) tr2 b.
Proof.
  revert tr. induction m as [a | X e k IH]; intros tr; simpl.
  - split.
    + intros H. exists a, [], tr. by repeat split.
    + intros (a' & tr1 & tr2 & -> & [-> ->] & H). exact H.
  - split.
    + intros (x & tr' & -> & H). apply IH in H.
      destruct H as (a & tr1 & tr2 & -> & H1 & H2).
      exists a, (Ev e x :: tr1), tr2. repeat split; [| exact H2].
      exists x, tr1. by split.
    + intros (a & tr1 & tr2 & -> & (x & tr' & -> & H1) & H2).
      exists x, (tr' ++ tr2). split; [reflexivity |].
      apply IH. exists a, tr', tr2. by repeat split.
Qed.

Lemma generate_calls_app (tr1 tr2 : list Event) :
  generate_calls (tr1 ++ tr2) = generate_calls tr1 ++ generate_calls tr2.
Proof. apply omap_app. Qed.

Lemma clock_readings_app (tr1 tr2 : list Event) :
  clock_readings (tr1 ++ tr2) = clock_readings tr1 ++ clock_readings tr2.
Proof. apply omap_app. Qed.

(** Taking a program's path apart, one effect or one branch at a time. *)
Ltac path_step :=
  match goal with
  | H : Path (Ret _) _ _ |- _ => destruct H as [-> H]; simplify_eq
  | H : Path (Vis _ _) _ _ |- _ =>
      let x := fresh "x" in
      let tr := fresh "tr" in
      destruct H as (x & tr & -> & H)
  | H : Path (bind (bind _ _) _) _ _ |- _ =>
      let a := fresh "a" in
      let tr1 := fresh "tr" in
      let tr2 := fresh "tr" in
      let H1 := fresh "H" in
      apply Path_bind in H; destruct H as (a & tr1 & tr2 & -> & H1 & H)
  | H : Path (bind (if ?b then _ else _) _) _ _ |- _ =>
      let E := fresh "E" in
      destruct b eqn:E; try (cbn in E; discriminate E)
  | H : Path (if ?b then _ else _) _ _ |- _ =>
      let E := fresh "E" in
      destruct b eqn:E; try (cbn in E; discriminate E)
  | H : Path (match ?r with GenErr _ => _ | GenOk _ => _ end) _ _ |- _ =>
      destruct r
  | H : Path (match ?o with Some _ => _ | None => _ end) _ _ |- _ =>
      destruct o
  | H : Path (match ?p with pair _ _ => _ end) _ _ |- _ => destruct p
  | H : Path (let _ := _ in _) _ _ |- _ => cbv zeta in H
  | H : Path (bind _ _) _ _ |- _ => progress cbn [bind] in H
  | H : Path (bind _ _) _ _ |- _ =>
      let a := fresh "a" in
      let tr1 := fresh "tr" in
      let tr2 := fresh "tr" in
      let H1 := fresh "H" in
      apply Path_bind in H; destruct H as (a & tr1 & tr2 & -> & H1 & H);
      cbn beta in H
  end.

Ltac path_inv := repeat path_step.

(** Projections of a trace written out as far as the trace is known. *)
Ltac trace_simpl :=
  unfold twoAttempts, generate_calls, clock_readings, stream_calls in *;
  repeat (rewrite ?omap_app; simpl omap);
  repeat match goal with
    | H : omap _ _ = _ |- _ => rewrite H
    end;
  simpl.

Ltac unfold_prog :=
  unfold mbind, Prog_bind, mret, Prog_ret, trigger in *; cbn [bind] in *.

(** ** The retry loops *)

Lemma answered_false (r : GenResult) : answered r = false <-> failedAttempt r.
Proof.
  destruct r as [err | response]; simpl; [easy |].
  rewrite negb_false_iff. apply String.eqb_eq.
Qed.

Lemma answered_true (r : GenResult) : answered r = true <-> ~ failedAttempt r.
Proof.
  destruct r as [err | response]; simpl; [easy |].
  rewrite negb_true_iff. apply String.eqb_neq.
Qed.

Ltac attempts_cases :=
  repeat split; try reflexivity;
  repeat match goal with
    | E : answered _ = true |- _ => apply answered_true in E
    | E : answered _ = false |- _ => apply answered_false in E
    end;
  first [ left; split; [reflexivity | assumption]
        | right; eexists; split; [reflexivity | assumption] ].

Lemma searchAttempts_paths (req : Request) (q : string) (tr : list Event)
    (r : GenResult) :
  Path (searchAttempts req q 0 1) tr r ->
  clock_readings tr = [] /\ stream_calls tr = [] /\ twoAttempts tr r.
Proof.
  intros H. cbn [searchAttempts] in H. unfold_prog. path_inv.
  all: attempts_cases.
Qed.

Lemma summaryAttempts_paths (req : Request) (tr : list Event) (r : GenResult) :
  Path (summaryAttempts req 0 1) tr r ->
  clock_readings tr = [] /\ stream_calls tr = [] /\ twoAttempts tr r.
Proof.
  intros H. cbn [summaryAttempts] in H. unfold_prog. path_inv.
  all: attempts_cases.
Qed.

Ltac eqb_props :=
  repeat match goal with
    | E : String.eqb _ _ = true |- _ => apply String.eqb_eq in E
    | E : String.eqb _ _ = false |- _ => apply String.eqb_neq in E
    end.

(** ** The retrying executor *)

Lemma performSingleSearch_paths (q : string) (tr : list Event)
    (a : SearchResult * option GoError) :
  Path (performSingleSearch q) tr a ->
  SearchRun q (generate_calls tr) (clock_readings tr) a /\ stream_calls tr = [].
Proof.
  intros H. unfold performSingleSearch in H. unfold_prog. path_inv.
  all: match goal with
    | H : Path (searchAttempts _ _ _ _) _ _ |- _ =>
        apply searchAttempts_paths in H; destruct H as (Hc & Hs & Hg)
    end.
  all: destruct Hg as [[Hg Hok] | (r1 & Hg & Hfail)].
  all: trace_simpl; eqb_props; (split; [| reflexivity]).
  all: try (exfalso; simpl in *; tauto).
  all: constructor; simpl; (assumption || congruence).
Qed.

(** ** The streaming executor *)

Lemma consumeStream_paths (items : list StreamItem) (acc : string)
    (tr : list Event) (a : string * option GoError) :
  Path (consumeStream items acc) tr a ->
  a = accumulate items acc /\
  generate_calls tr = [] /\ stream_calls tr = [] /\ clock_readings tr = [].
Proof.
  revert acc tr.
  induction items as [| [err | response] rest IH]; intros acc tr H; simpl in H.
  - by destruct H as [-> ->].
  - by destruct H as [-> ->].
  - simpl. destruct (0 <? Candidates response)%nat.
    + unfold_prog. destruct H as ([] & tr' & -> & H).
      apply IH in H. destruct H as (-> & Hg & Hs & Hc). by repeat split.
    + by apply IH.
Qed.

Lemma streamAttempts_paths (req : Request) (q : string) (tr : list Event)
    (responseText : string) (lastErr : option GoError) :
  Path (streamAttempts req q 0 None 1) tr (responseText, lastErr) ->
  clock_readings tr = [] /\ generate_calls tr = [] /\
  ((exists s1, stream_calls tr = [s1] /\ streamSucceeded s1 /\
               responseText = attemptText s1 /\ lastErr = None) \/
   (exists s1 s2, stream_calls tr = [s1; s2] /\ ~ streamSucceeded s1 /\
                  responseText = attemptText s2 /\
                  lastErr = match attemptError s2 with
                            | Some e => Some e
                            | None => attemptError s1
                            end)).
Proof.
  intros H. cbn [streamAttempts] in H. unfold_prog. path_inv.
  all: repeat match goal with
    | H : Path (consumeStream _ _) _ _ |- _ =>
        apply consumeStream_paths in H; destruct H as (? & ? & ? & ?)
    end.
  all: trace_simpl; (split; [reflexivity |]); (split; [reflexivity |]).
  all: unfold streamSucceeded, attemptText, attemptError.
  all: repeat match goal with
    | H : (_, _) = accumulate _ _ |- _ => symmetry in H
    end.
  - left. eexists. split; [reflexivity |].
    match goal with H : accumulate _ _ = _ |- _ => rewrite H end. simpl.
    destruct o; simpl in *; [discriminate |]. 
    apply negb_true_iff in E. by eqb_props.
  - right. eexists _, _. split; [reflexivity |].
    repeat match goal with H : accumulate _ _ = _ |- _ => rewrite H; clear H end.
    simpl. split; [| split; [reflexivity | by destruct o0, o]].
    intros [-> Hs]. simpl in E. apply negb_false_iff in E. by eqb_props.
  - right. eexists _, _. split; [reflexivity |].
    repeat match goal with H : accumulate _ _ = _ |- _ => rewrite H; clear H end.
    simpl. split; [| split; [reflexivity | by destruct o0, o]].
    intros [-> Hs]. simpl in E. apply negb_false_iff in E. by eqb_props.
Qed.

Lemma performSingleSearchStream_paths (q : string) (tr : list Event)
    (a : SearchResult * option GoError) :
  Path (performSingleSearchStream q) tr a ->
  StreamRun q (stream_calls tr) (clock_readings tr) a /\ generate_calls tr = [].
Proof.
  intros H. unfold performSingleSearchStream in H. unfold_prog. path_inv.
  all: match goal with
    | H : Path (streamAttempts _ _ _ _ _) _ _ |- _ =>
        apply streamAttempts_paths in H; destruct H as (Hc & Hg & Hs)
    end.
  all: destruct Hs as [(s1 & Hs & Hok & -> & Herr)
                      | (s1 & s2 & Hs & Hfail & -> & Herr)].
  all: trace_simpl; eqb_props; (split; [| reflexivity]).
  all: try discriminate.
  all: try (exfalso; destruct Hok; congruence).
  all: try (constructor; assumption).
  - by apply StreamRun_error.
  - destruct (attemptError s2) eqn:E2; [discriminate |].
    by apply StreamRun_empty.
Qed.

(** ** The summarizer *)

Lemma generateSummary_paths (q response : string) (tr : list Event)
    (a : string * option GoError) :
  Path (generateSummary q response) tr a ->
  clock_readings tr = [] /\ stream_calls tr = [] /\
  (a.2 = None -> a.1 <> "").
Proof.
  intros H. unfold generateSummary in H. unfold_prog. path_inv.
  all: match goal with
    | H : Path (summaryAttempts _ _ _) _ _ |- _ =>
        apply summaryAttempts_paths in H; destruct H as (Hc & Hs & Hg)
    end.
  all: trace_simpl; eqb_props.
  all: by repeat split.
Qed.

(** ** One query of a batch *)

Lemma processQuery_paths (q : string) (b : bool) (tr : list Event)
    (r : SearchResult) :
  Path (processQuery q b) tr r ->
  exists t0 tr1 sr err tr2,
    tr = Ev TimeNow t0 :: tr1 ++ tr2 /\
    Path (performSingleSearch q) tr1 (sr, err) /\
    match err with
    | Some e =>
        exists t, tr2 = [Ev TimeNow t] /\
                  r = mkSearchResult q "" "" false e (t - t0) t0
    | None =>
        if Success sr && b
        then exists summary serr,
               Path (generateSummary q (Response sr)) tr2 (summary, serr) /\
               r = mkSearchResult q (Response sr)
                     (match serr with
                      | Some _ => summaryFailed
                      | None => summary
                      end)
                     (Success sr) "" (Duration sr) t0
        else tr2 = [] /\
             r = mkSearchResult q (Response sr) "" (Success sr) ""
                   (Duration sr) t0
    end.
Proof.
  intros H. unfold processQuery in H. unfold_prog.
  destruct H as (t0 & tr' & -> & H).
  apply Path_bind in H. destruct H as ([sr err] & tr1 & tr2 & -> & H1 & H).
  exists t0, tr1, sr, err, tr2. split; [reflexivity |]. split; [exact H1 |].
  destruct err as [e |].
  - path_inv. eexists. by split.
  - cbn [Success Response Query Error Duration Timestamp] in H.
    destruct (Success sr && b).
    + apply Path_bind in H. destruct H as ([summary serr] & tr3 & tr4 & -> & H2 & H).
      exists summary, serr. destruct serr; path_inv; rewrite app_nil_r; by split.
    + path_inv. by split.
Qed.

Lemma processQuery_run {W : Type} (h : Handler W) (q : string) (b : bool)
    (w : W) :
  let t0 := (h _ TimeNow w).1 in
  let s := run h (performSingleSearch q) (h _ TimeNow w).2 in
  (run h (processQuery q b) w).1 =
  match s.1.2 with
  | Some e => mkSearchResult q "" "" false e ((h _ TimeNow s.2).1 - t0) t0
  | None =>
      if Success s.1.1 && b
      then
        let g := run h (generateSummary q (Response s.1.1)) s.2 in
        mkSearchResult q (Response s.1.1)
          (match g.1.2 with Some _ => summaryFailed | None => g.1.1 end)
          (Success s.1.1) "" (Duration s.1.1) t0
      else mkSearchResult q (Response s.1.1) "" (Success s.1.1) ""
             (Duration s.1.1) t0
  end.
Proof.
  cbv zeta. unfold processQuery. unfold_prog. cbn [run].
  destruct (h _ TimeNow w) as [t0 w0]. cbn [fst snd]. rewrite run_bind.
  destruct (run h (performSingleSearch q) w0) as [[sr err] w1].
  destruct err as [e |]; cbn [fst snd].
  - cbn [run]. by destruct (h _ TimeNow w1).
  - cbn [Success Response Query Error Duration Timestamp].
    destruct (Success sr && b); [| reflexivity].
    rewrite run_bind.
    destruct (run h (generateSummary q (Response sr)) w1) as [[summary serr] w2].
    by destruct serr.
Qed.

(** ** The single-query branch of [main] *)

Lemma mainSingleQuery_run {W : Type} (h : Handler W) (config : Config) (w : W) :
  stream config = false ->
  let s := run h (performSingleSearch (query config)) w in
  (run h (mainSingleQuery config) w).1 =
  match s.1.2 with
  | Some e => Exit 1
  | None =>
      if includeSummary config && Success s.1.1
      then
        let g := run h (generateSummary (Query s.1.1) (Response s.1.1)) s.2 in
        Continue
          (mkSearchResult (Query s.1.1) (Response s.1.1)
             (match g.1.2 with Some _ => summaryFailed | None => g.1.1 end)
             (Success s.1.1) (Error s.1.1) (Duration s.1.1) (Timestamp s.1.1))
      else Continue s.1.1
  end.
Proof.
  intros Hstream. cbv zeta. unfold mainSingleQuery. rewrite Hstream.
  unfold_prog. rewrite run_bind.
  destruct (run h (performSingleSearch (query config)) w) as [[sr err] w1].
  destruct err as [e |]; cbn [fst snd].
  - unfold handleError. unfold_prog. cbn [run].
    by repeat match goal with |- context [h ?X ?e ?w] => destruct (h X e w) end.
  - destruct (includeSummary config && Success sr); [| reflexivity].
    rewrite run_bind.
    destruct (run h (generateSummary (Query sr) (Response sr)) w1)
      as [[summary serr] w2].
    by destruct serr.
Qed.

(** * The executors *)

(** ** Retry policy of the non-streaming executor *)

(** C3. The non-streaming executor makes one or two one-shot calls to the
    backend and no streaming call; it makes the second call exactly when
    the first errored or returned empty text; and when the first attempt
    returns empty text and the second returns non-empty text without
    error, the outcome is a success carrying the second attempt's text. *)
Theorem performSingleSearch_retry {W : Type} (h : Handler W) (q : string)
    (w : W) :
  let tr := trace_of h (performSingleSearch q) w in
  let out := (run h (performSingleSearch q) w).1 in
  stream_calls tr = [] /\
  ((exists r1, generate_calls tr = [r1] /\ ~ failedAttempt r1) \/
   (exists r1 r2, generate_calls tr = [r1; r2] /\ failedAttempt r1)) /\
  (forall response1 response2,
     generate_calls tr = [GenOk response1; GenOk response2] ->
     Text response1 = "" ->
     Text response2 <> "" ->
     Success out.1 = true /\ Response out.1 = Text response2 /\ out.2 = None).
Proof.
  intros tr out.
  destruct (performSingleSearch_paths q tr out) as [HR Hs];
    [apply run_Path |].
  split; [exact Hs |].
  destruct HR; (split; [eauto 6 |]); intros response1 response2 Hcalls H1 H2;
    simplify_eq; simpl; (try by repeat split); contradiction.
Qed.

Lemma performSingleSearch_retry_witness :
  Success (run canned (performSingleSearch "Go")
             (cannedAnswers [text ""; text "answer"])).1.1 = true /\
  Response (run canned (performSingleSearch "Go")
              (cannedAnswers [text ""; text "answer"])).1.1 = "answer" /\
  (run canned (performSingleSearch "Go")
     (cannedAnswers [text ""; text "answer"])).1.2 = None.
Proof.
  apply (proj2 (proj2 (performSingleSearch_retry canned "Go"
                         (cannedAnswers [text ""; text "answer"])))
           (mkGenResponse 1 "") (mkGenResponse 1 "answer"));
    [reflexivity | reflexivity | discriminate].
Defined.

(** ** Outcome after both attempts failed *)

(** In a batch the recorded failure reason is not the short fixed string:
    with a backend that returns empty text on both attempts,
    [processQuery] records the message of the executor's error, which
    does not contain "Empty response". *)
Lemma processQuery_reason_counterexample :
  exhausted (generate_calls
               (trace_of canned (processQuery "Go" false)
                  (cannedAnswers [text ""; text ""]))) /\
  Error (run canned (processQuery "Go" false)
           (cannedAnswers [text ""; text ""])).1
  = "received empty response after retries" /\
  contains "Empty response"
    (Error (run canned (processQuery "Go" false)
              (cannedAnswers [text ""; text ""])).1) = false /\
  ~ fixedFailure
      (generate_calls
         (trace_of canned (processQuery "Go" false)
            (cannedAnswers [text ""; text ""])))
      (run canned (processQuery "Go" false)
         (cannedAnswers [text ""; text ""])).1.
Proof.
  split; [| split; [| split]].
  - exists (text ""), (text ""). by repeat split.
  - reflexivity.
  - reflexivity.
  - intros H.
    destruct (H (text "") (text "") eq_refl eq_refl eq_refl) as (_ & _ & HE).
    discriminate HE.
Qed.

(** C4, as the code has it.  When the non-streaming executor has made both
    attempts and both failed, its outcome has [Success = false], an empty
    [Response] and the reason "Search failed" when the last attempt
    errored, "Empty response" when it returned empty text.  The outcome
    [processQuery] records for a batch has [Success = false] and an empty
    [Response] too, and as its reason the message of the executor's
    error. *)
Theorem exhausted_outcome {W : Type} (h : Handler W) (q : string) (w : W) :
  fixedFailure (generate_calls (trace_of h (performSingleSearch q) w))
               (run h (performSingleSearch q) w).1.1 /\
  forall (b : bool) (r1 r2 : GenResult),
    generate_calls (trace_of h (processQuery q b) w) = [r1; r2] ->
    failedAttempt r1 ->
    failedAttempt r2 ->
    Success (run h (processQuery q b) w).1 = false /\
    Response (run h (processQuery q b) w).1 = "" /\
    Error (run h (processQuery q b) w).1 = errorMessage r2.
Proof.
  split.
  - destruct (performSingleSearch_paths q
                (trace_of h (performSingleSearch q) w)
                (run h (performSingleSearch q) w).1) as [HR _];
      [apply run_Path |].
    destruct HR; intros r1' r2' Hcalls H1 H2; simplify_eq; simpl in *;
      (try by repeat split); contradiction.
  - intros b r1 r2.
    destruct (processQuery_paths q b (trace_of h (processQuery q b) w)
                (run h (processQuery q b) w).1)
      as (t0 & tr1 & sr & err & tr2 & -> & HP & Hr); [apply run_Path |].
    apply performSingleSearch_paths in HP as [HR _].
    change (generate_calls (Ev TimeNow t0 :: tr1 ++ tr2))
      with (generate_calls (tr1 ++ tr2)).
    rewrite generate_calls_app.
    inversion HR as [? ? ? resp Hne Hc | ? ? ? r1' resp Hf Hne Hc
                    | ? ? ? r1' e Hf Hc | ? ? ? r1' resp Hf He Hc];
      subst; try rewrite <- Hc; intros Hcalls H1 H2; cbn [app] in Hcalls;
      simplify_eq; cbn [failedAttempt] in *; try contradiction.
    + destruct Hr as (t & _ & ->). by repeat split.
    + destruct Hr as (t & _ & ->). by repeat split.
Qed.

Lemma exhausted_outcome_witness :
  Success (run canned (processQuery "Go" true)
             (cannedAnswers [text ""; GenErr "timeout"])).1 = false /\
  Response (run canned (processQuery "Go" true)
              (cannedAnswers [text ""; GenErr "timeout"])).1 = "" /\
  Error (run canned (processQuery "Go" true)
           (cannedAnswers [text ""; GenErr "timeout"])).1
  = "failed to generate content after retries: timeout".
Proof.
  apply (proj2 (exhausted_outcome canned "Go"
                  (cannedAnswers [text ""; GenErr "timeout"]))
           true (text "") (GenErr "timeout"));
    [reflexivity | reflexivity | exact I].
Defined.

(** ** Retry policy of the streaming executor *)





(** ** Error return and outcome of the executors *)

Lemma SearchRun_reported (q : string) (tr : list Event)
    (out : SearchResult * option GoError) :
  SearchRun q (generate_calls tr) (clock_readings tr) out ->
  failureReported q tr out /\ wellFormed out.1.
Proof.
  unfold failureReported, populated.
  inversion 1; subst; simpl; (split; [split; [| split] |]).
  all: try (split; [reflexivity | by exists t0, t1, t2]).
  all: try (split; congruence).
  all: try congruence.
  all: try (by left).
  all: try (by right).
Qed.

Lemma StreamRun_reported (q : string) (tr : list Event)
    (out : SearchResult * option GoError) :
  StreamRun q (stream_calls tr) (clock_readings tr) out ->
  failureReported q tr out /\ wellFormed out.1.
Proof.
  unfold failureReported, populated.
  inversion 1 as [? ? ? ? [_ Hok] | | |]; subst; simpl;
    (split; [split; [| split] |]).
  all: try (split; [reflexivity | by exists t0, t1, t2]).
  all: try (split; congruence).
  all: try congruence.
  all: try (by left).
  all: try (by right).
Qed.

Lemma performSingleSearch_reported {W : Type} (h : Handler W) (q : string)
    (w : W) :
  failureReported q (trace_of h (performSingleSearch q) w)
    (run h (performSingleSearch q) w).1.
Proof.
  apply SearchRun_reported.
  apply performSingleSearch_paths, run_Path.
Qed.

(** C10. Both single-query executors return a non-nil error exactly when
    the outcome they return has [Success = false]; the outcome is
    returned in every case, with the query, the start time and the elapsed
    time between the first and the last clock reading, and with a
    non-empty failure reason whenever the error is not nil. *)
Theorem executors_report_failure {W : Type} (h : Handler W) (q : string)
    (w : W) :
  failureReported q (trace_of h (performSingleSearch q) w)
    (run h (performSingleSearch q) w).1 /\
  failureReported q (trace_of h (performSingleSearchStream q) w)
    (run h (performSingleSearchStream q) w).1.
Proof.
  split.
  - apply performSingleSearch_reported.
  - apply StreamRun_reported.
    apply performSingleSearchStream_paths, run_Path.
Qed.

Lemma executors_report_failure_witness :
  Error (run canned (performSingleSearch "Go")
           (cannedAnswers [GenErr "reset"; GenErr "timeout"])).1.1 <> "".
Proof.
  apply (proj2 (proj2 (proj1 (executors_report_failure canned "Go"
                                (cannedAnswers [GenErr "reset";
                                                GenErr "timeout"]))))).
  discriminate.
Defined.

(** ** What [processQuery] records *)

(** Every path of [processQuery] ends in a well-formed outcome for its
    query. *)
Lemma processQuery_outcome (q : string) (b : bool) (tr : list Event)
    (r : SearchResult) :
  Path (processQuery q b) tr r -> Query r = q /\ wellFormed r.
Proof.
  intros H. apply processQuery_paths in H.
  destruct H as (t0 & tr1 & sr & err & tr2 & -> & HP & Hr).
  apply performSingleSearch_paths in HP as [HR _].
  inversion HR; subst.
  - destruct (Success _ && b).
    + destruct Hr as (summary & serr & _ & ->). split; [reflexivity |].
      by left.
    + destruct Hr as [_ ->]. split; [reflexivity |]. by left.
  - destruct (Success _ && b).
    + destruct Hr as (summary & serr & _ & ->). split; [reflexivity |].
      by left.
    + destruct Hr as [_ ->]. split; [reflexivity |]. by left.
  - destruct Hr as (t & _ & ->). split; [reflexivity |]. by right.
  - destruct Hr as (t & _ & ->). split; [reflexivity |]. by right.
Qed.

Lemma processQuery_trace {W : Type} (h : Handler W) (q : string) (b : bool)
    (w : W) :
  let s := run h (performSingleSearch q) (h _ TimeNow w).2 in
  trace_of h (processQuery q b) w =
  Ev TimeNow (h _ TimeNow w).1
  :: trace_of h (performSingleSearch q) (h _ TimeNow w).2
  ++ match s.1.2 with
     | Some e => [Ev TimeNow (h _ TimeNow s.2).1]
     | None =>
         if Success s.1.1 && b
         then trace_of h (generateSummary q (Response s.1.1)) s.2
         else []
     end.
Proof.
  cbv zeta. unfold processQuery. unfold_prog. rewrite trace_of_vis.
  f_equal. rewrite trace_of_bind. f_equal.
  destruct (run h (performSingleSearch q) (h Z TimeNow w).2) as [[sr err] w1].
  destruct err as [e |]; cbn [fst snd].
  - by rewrite trace_of_vis.
  - cbn [Success Response Query Error Duration Timestamp].
    destruct (Success sr && b); [| reflexivity].
    rewrite trace_of_bind.
    destruct (run h (generateSummary q (Response sr)) w1)
      as [[summary serr] w2].
    destruct serr; cbn [fst snd]; unfold trace_of at 2; simpl;
      by rewrite app_nil_r.
Qed.

(** An executor that returns no error returns a successful outcome. *)
Lemma performSingleSearch_no_error {W : Type} (h : Handler W) (q : string)
    (w : W) :
  Success (run h (performSingleSearch q) w).1.1 = true <->
  (run h (performSingleSearch q) w).1.2 = None.
Proof.
  destruct (performSingleSearch_reported h q w) as [Hiff _].
  destruct (Success _), ((run h (performSingleSearch q) w).1.2);
    split; intros H; try reflexivity; try discriminate.
  - exfalso. assert (Hf : true = false) by (by apply Hiff). discriminate.
  - exfalso. by apply Hiff.
Qed.

(** ** Summarization *)

(** C6. When the executor call of a query has succeeded and the
    summarization call that follows fails, the outcome still has
    [Success = true] and its summary is "Summary generation failed", in
    [processQuery] (the batch path) and in the single-query branch of
    [main]. *)
Theorem summary_failure_not_fatal {W : Type} (h : Handler W) :
  (forall (q : string) (w : W),
     let s := run h (performSingleSearch q) (h _ TimeNow w).2 in
     Success s.1.1 = true ->
     (run h (generateSummary q (Response s.1.1)) s.2).1.2 <> None ->
     Success (run h (processQuery q true) w).1 = true /\
     Summary (run h (processQuery q true) w).1 = "Summary generation failed") /\
  (forall (config : Config) (w : W),
     let s := run h (performSingleSearch (query config)) w in
     stream config = false ->
     includeSummary config = true ->
     Success s.1.1 = true ->
     (run h (generateSummary (Query s.1.1) (Response s.1.1)) s.2).1.2 <> None ->
     exists r,
       (run h (mainSingleQuery config) w).1 = Continue r /\
       Success r = true /\
       Summary r = "Summary generation failed").
Proof.
  split.
  - intros q w s Hsuccess Hsummary.
    pose proof (processQuery_run h q true w) as Hrun. cbv zeta in Hrun.
    fold s in Hrun. rewrite Hrun.
    apply performSingleSearch_no_error in Hsuccess as Herr.
    fold s in Herr. rewrite Herr, Hsuccess. cbn [andb].
    destruct (run h (generateSummary q (Response s.1.1)) s.2).1.2;
      [by split | contradiction].
  - intros config w s Hstream Hinclude Hsuccess Hsummary.
    pose proof (mainSingleQuery_run h config w Hstream) as Hrun.
    cbv zeta in Hrun. fold s in Hrun. rewrite Hrun.
    apply performSingleSearch_no_error in Hsuccess as Herr.
    fold s in Herr. rewrite Herr, Hinclude, Hsuccess. cbn [andb].
    eexists. split; [reflexivity |].
    destruct (run h (generateSummary (Query s.1.1) (Response s.1.1)) s.2).1.2;
      [by split | contradiction].
Qed.

Lemma summary_failure_not_fatal_witness :
  Success (run canned (processQuery "Go" true)
             (cannedAnswers [text "answer"; GenErr "reset"; text ""])).1
  = true /\
  Summary (run canned (processQuery "Go" true)
             (cannedAnswers [text "answer"; GenErr "reset"; text ""])).1
  = "Summary generation failed".
Proof.
  apply (proj1 (summary_failure_not_fatal canned) "Go"
           (cannedAnswers [text "answer"; GenErr "reset"; text ""]));
    [reflexivity | discriminate].
Defined.

(** A successful outcome of the executor carries its query and no
    failure reason. *)
Lemma performSingleSearch_success {W : Type} (h : Handler W) (q : string)
    (w : W) :
  Success (run h (performSingleSearch q) w).1.1 = true ->
  Query (run h (performSingleSearch q) w).1.1 = q /\
  Error (run h (performSingleSearch q) w).1.1 = "".
Proof.
  destruct (SearchRun_reported q (trace_of h (performSingleSearch q) w)
              (run h (performSingleSearch q) w).1)
    as [(_ & (Hq & _) & _) Hwf];
    [apply performSingleSearch_paths, run_Path |].
  intros Hs. split; [exact Hq |].
  destruct Hwf as [(_ & _ & He) | (Hf & _)]; [exact He | congruence].
Qed.

(** C9. Summarization changes nothing but the summary: the outcome of a
    query processed with summarization has the same query, answer,
    success flag, failure reason, elapsed time and start time as the
    outcome of the same query processed without it.  The summarizer reads
    no clock; the start time is the clock reading at the entry of
    [processQuery]; and a successful outcome has the query, answer,
    success flag, failure reason and elapsed time of the outcome the
    executor returned, so its elapsed time was measured before
    summarization began. *)
Theorem summary_frame {W : Type} (h : Handler W) (q : string) (w : W) :
  let r := (run h (processQuery q true) w).1 in
  let r0 := (run h (processQuery q false) w).1 in
  let sr := (run h (performSingleSearch q) (h _ TimeNow w).2).1.1 in
  (Query r = Query r0 /\
   Response r = Response r0 /\
   Success r = Success r0 /\
   Error r = Error r0 /\
   Duration r = Duration r0 /\
   Timestamp r = Timestamp r0) /\
  Summary r0 = "" /\
  clock_readings (trace_of h (processQuery q true) w)
  = clock_readings (trace_of h (processQuery q false) w) /\
  Timestamp r = (h _ TimeNow w).1 /\
  (Success r = true ->
   Query r = Query sr /\
   Response r = Response sr /\
   Success r = Success sr /\
   Error r = Error sr /\
   Duration r = Duration sr).
Proof.
  cbv zeta. rewrite !processQuery_run, !processQuery_trace. cbv zeta.
  pose proof (performSingleSearch_success h q (h Z TimeNow w).2) as Hsr.
  set (s := run h (performSingleSearch q) (h Z TimeNow w).2) in *.
  change (Ev TimeNow (h Z TimeNow w).1
          :: trace_of h (performSingleSearch q) (h Z TimeNow w).2 ++ ?x)
    with ([Ev TimeNow (h Z TimeNow w).1]
          ++ trace_of h (performSingleSearch q) (h Z TimeNow w).2 ++ x).
  rewrite !clock_readings_app.
  destruct s.1.2 as [e |]; [by repeat split |].
  rewrite andb_true_r, andb_false_r.
  destruct (Success s.1.1) eqn:Hsuccess; [| by repeat split].
  destruct (Hsr eq_refl) as [Hquery Herror].
  repeat split; try (symmetry; assumption).
  f_equal. f_equal.
  destruct (generateSummary_paths q (Response s.1.1)
              (trace_of h (generateSummary q (Response s.1.1)) s.2)
              (run h (generateSummary q (Response s.1.1)) s.2).1)
    as [Hclock _]; [apply run_Path |].
  exact Hclock.
Qed.

Lemma summary_frame_witness :
  Duration (run canned (processQuery "Go" true)
              (cannedAnswers [text "answer"; text ""; text "summary"])).1
  = Duration (run canned (performSingleSearch "Go")
                (canned _ TimeNow
                   (cannedAnswers [text "answer"; text ""; text "summary"])).2).1.1.
Proof.
  apply (proj2 (proj2 (proj2 (proj2
           (summary_frame canned "Go"
              (cannedAnswers [text "answer"; text ""; text "summary"])))))).
  reflexivity.
Defined.

(** * The goroutine pool *)

(** ** Counting goroutines *)

Lemma countIf_app {A : Type} (f : A -> bool) (l1 l2 : list A) :
  countIf f (l1 ++ l2) = (countIf f l1 + countIf f l2)%nat.
Proof.
  induction l1 as [| x l1 IH]; simpl; [reflexivity |].
  destruct (f x); simpl; by rewrite IH.
Qed.

Lemma countIf_insert {A : Type} (f : A -> bool) (l : list A) (i : nat)
    (x y : A) :
  l !! i = Some x ->
  (countIf f (<[i := y]> l) + (if f x then 1 else 0)
   = countIf f l + (if f y then 1 else 0))%nat.
Proof.
  revert i. induction l as [| z l IH]; intros i Hi; [discriminate |].
  destruct i as [| i]; simpl in *.
  - simplify_eq. destruct (f x), (f y); lia.
  - specialize (IH i Hi). destruct (f z); lia.
Qed.

Lemma countIf_le {A : Type} (f g : A -> bool) (l : list A) :
  (forall x, f x = true -> g x = true) ->
  (countIf f l <= countIf g l)%nat.
Proof.
  intros Hfg. induction l as [| x l IH]; simpl; [lia |].
  destruct (f x) eqn:Hf; [rewrite (Hfg x Hf); lia |].
  destruct (g x); lia.
Qed.

Lemma countIf_zero {A : Type} (f : A -> bool) (l : list A) (i : nat) (x : A) :
  countIf f l = O -> l !! i = Some x -> f x = false.
Proof.
  revert i. induction l as [| z l IH]; intros i Hc Hi; [discriminate |].
  simpl in Hc. destruct (f z) eqn:Hz; [discriminate |].
  destruct i as [| i]; simpl in Hi; [by simplify_eq | by eapply IH].
Qed.

Lemma countIf_pos {A : Type} (f : A -> bool) (l : list A) :
  countIf f l = O \/ exists i x, l !! i = Some x /\ f x = true.
Proof.
  induction l as [| z l [IH | (i & x & Hi & Hx)]]; simpl.
  - by left.
  - destruct (f z) eqn:Hz; [| by left].
    right. by exists O, z.
  - right. by exists (S i), x.
Qed.

(** ** The invariant holds in every reachable state *)

Section PoolInvariant.
Context {W : Type}.
Variable h : Handler W.
Variable config : Config.
Variable qs : list string.

Lemma PoolInv_init (w : W) : PoolInv config qs (initPool qs w).
Proof.
  split; simpl.
  - apply length_replicate.
  - by split.
  - intros j gr Hj. discriminate Hj.
  - reflexivity.
  - reflexivity.
  - by left.
Qed.

Lemma goroutineOk_results (results results' : list SearchResult) (j : nat)
    (q : string) (gr : Goroutine) :
  results' !! j = results !! j ->
  goroutineOk results j q gr -> goroutineOk results' j q gr.
Proof. intros Hj. destruct gr; simpl; by rewrite ?Hj. Qed.

Lemma PoolInv_stepMain (s s' : Pool W) :
  PoolInv config qs s -> stepMain s = Some s' -> PoolInv config qs s'.
Proof.
  intros [Hres Hmain Hgo Hsem Hwg Hcap]. unfold stepMain.
  destruct (mainAt s) as [i [| q rest] |] eqn:Hm; [| | discriminate].
  - destruct (wg s) eqn:Hw; [| discriminate]. intros [= <-].
    destruct Hmain as [Hrest Hlen].
    split; simpl; try assumption.
    split; [| reflexivity].
    assert (Hle : (length (goroutines s) <= length qs)%nat).
    { destruct (goroutines s) as [| gr l] eqn:Hl using rev_ind; [simpl; lia |].
      destruct (Hgo (length l) gr) as (q & Hq & _).
      { by rewrite lookup_app_r, Nat.sub_diag. }
      apply lookup_lt_Some in Hq. rewrite length_app. simpl. lia. }
    symmetry in Hrest. apply drop_nil_inv in Hrest.
    rewrite Hlen. lia.
  - intros [= <-]. destruct Hmain as [Hrest Hlen].
    assert (Hq : qs !! i = Some q).
    { pose proof (lookup_drop qs i 0) as Hd.
      rewrite <- Hrest, Nat.add_0_r in Hd. by rewrite <- Hd. }
    split; simpl; try assumption.
    + split; [| rewrite length_app; simpl; lia].
      apply drop_S in Hq. rewrite <- Hrest in Hq. by simplify_eq.
    + intros j gr Hj. apply lookup_app_Some in Hj as [Hj | [Hge Hj]].
      * by apply Hgo.
      * destruct (j - length (goroutines s))%nat eqn:Hji; [| done].
        simpl in Hj. assert (j = i) as -> by lia. simplify_eq.
        by exists q.
    + rewrite countIf_app. simpl. lia.
    + rewrite countIf_app. simpl. lia.
Qed.
(** Replacing the state of goroutine [g], given what the replacement
    does to the slots, the semaphore and the wait group. *)
Lemma PoolInv_update (s : Pool W) (g : nat) (gr gr' : Goroutine)
    (results' : list SearchResult) (sem' wg' : nat) (world' : W) :
  PoolInv config qs s ->
  goroutines s !! g = Some gr ->
  notDone gr = true ->
  length results' = length qs ->
  (forall j, j <> g -> results' !! j = results s !! j) ->
  (forall q, qs !! g = Some q ->
             goroutineOk (results s) g q gr -> goroutineOk results' g q gr') ->
  (sem' + (if holdsSlot gr then 1 else 0)
   = sem s + (if holdsSlot gr' then 1 else 0))%nat ->
  (wg' + 1 = wg s + (if notDone gr' then 1 else 0))%nat ->
  (sem' = O \/ Z.of_nat sem' <= workers config) ->
  PoolInv config qs
    (mkPool results' sem' wg' (<[g := gr']> (goroutines s)) (mainAt s)
            world').
Proof.
  intros [Hres Hmain Hgo Hsem Hwg Hcap] Hg Hnd Hlen Hother Hself Hs Hw Hc.
  pose proof (countIf_insert holdsSlot _ _ _ gr' Hg) as Hcs.
  pose proof (countIf_insert notDone _ _ _ gr' Hg) as Hcw.
  rewrite Hnd in Hcw.
  split; simpl.
  - exact Hlen.
  - destruct (mainAt s); simpl in *.
    + by rewrite length_insert.
    + destruct Hmain as [_ Hz]. rewrite Hz in Hwg. symmetry in Hwg.
      rewrite (countIf_zero _ _ _ _ Hwg Hg) in Hnd. discriminate Hnd.
  - intros j gr0 Hj. destruct (decide (j = g)) as [-> | Hne].
    + rewrite list_lookup_insert_eq in Hj by (by eapply lookup_lt_Some).
      simplify_eq. destruct (Hgo g gr Hg) as (q & Hq & Hok).
      exists q. split; [exact Hq | by apply Hself].
    + rewrite list_lookup_insert_ne in Hj by done.
      destruct (Hgo j gr0 Hj) as (q & Hq & Hok).
      exists q. split; [exact Hq |].
      eapply goroutineOk_results; [by apply Hother | exact Hok].
  - lia.
  - lia.
  - exact Hc.
Qed.
Lemma PoolInv_stepGoroutine (s s' : Pool W) (g : nat) (gr gr' : Goroutine) :
  PoolInv config qs s ->
  goroutines s !! g = Some gr ->
  stepGoroutine h config gr s = Some (gr', s') ->
  PoolInv config qs
    (mkPool (results s') (sem s') (wg s') (<[g := gr']> (goroutines s'))
            (mainAt s') (world s')).
Proof.
  intros Hinv Hg Hstep.
  pose proof (inv_cap _ _ _ Hinv) as Hcap.
  pose proof (inv_results _ _ _ Hinv) as Hres.
  destruct gr as [index q | index [result | X e k] | index X e k
                 | result | | |]; simpl in Hstep.
  - destruct (Z.of_nat (sem s) <? workers config) eqn:Hlt; [| discriminate].
    injection Hstep as <- <-. simpl. apply Z.ltb_lt in Hlt.
    eapply PoolInv_update; eauto; simpl; try lia.
    intros q' Hq [-> ->]. split; [reflexivity |].
    intros tr r. apply processQuery_outcome.
  - destruct (index <? length (results s))%nat eqn:Hlt; [| discriminate].
    injection Hstep as <- <-. simpl. apply Nat.ltb_lt in Hlt.
    destruct (inv_goroutines _ _ _ Hinv g _ Hg) as (q0 & Hq0 & -> & Hp).
    eapply PoolInv_update; eauto; simpl; try lia.
    + by rewrite length_insert.
    + intros j Hj. by apply list_lookup_insert_ne.
    + intros q Hq [_ Hpath]. exists result.
      split; [by apply list_lookup_insert_eq |].
      by apply (Hpath []).
  - destruct (isBackendCall e) eqn:Hcall.
    + injection Hstep as <- <-.
      eapply PoolInv_update; eauto; simpl; try lia.
      intros q Hq [-> Hpath]. split; [reflexivity | split; [exact Hcall |]].
      intros x tr r Hp. apply (Hpath (Ev e x :: tr)). by exists x, tr.
    + destruct (h X e (world s)) as [x w'] eqn:Hh. injection Hstep as <- <-. simpl.
      eapply PoolInv_update; eauto; simpl; try lia.
      intros q Hq [-> Hpath]. split; [reflexivity |].
      intros tr r Hp. apply (Hpath (Ev e x :: tr)). by exists x, tr.
  - destruct (h X e (world s)) as [x w'] eqn:Hh. injection Hstep as <- <-. simpl.
    eapply PoolInv_update; eauto; simpl; try lia.
    intros q Hq (-> & _ & Hpath). split; [reflexivity |].
    intros tr r Hp. by apply (Hpath x tr).
  - destruct (verbose config).
    + destruct (h _ _ (world s)) as [x w'] eqn:Hh. injection Hstep as <- <-. simpl.
      eapply PoolInv_update; eauto; simpl; try lia.
    + injection Hstep as <- <-.
      eapply PoolInv_update; eauto; simpl; try lia.
  - destruct (sem s) as [| n] eqn:Hsem; [discriminate |].
    injection Hstep as <- <-. simpl.
    eapply PoolInv_update; eauto; simpl; try lia.
  - destruct (wg s) as [| n] eqn:Hwg; [discriminate |].
    injection Hstep as <- <-. simpl.
    eapply PoolInv_update; eauto; simpl; try lia.
  - discriminate.
Qed.

Lemma PoolInv_step (pick : Pick) (s s' : Pool W) :
  PoolInv config qs s -> step h config pick s = Some s' ->
  PoolInv config qs s'.
Proof.
  intros Hinv. destruct pick as [| g]; simpl.
  - by apply PoolInv_stepMain.
  - destruct (goroutines s !! g) as [gr |] eqn:Hg; [| discriminate].
    destruct (stepGoroutine h config gr s) as [[gr' s1] |] eqn:Hstep;
      [| discriminate].
    intros [= <-]. by eapply PoolInv_stepGoroutine.
Qed.

Lemma PoolInv_exec (sched : list Pick) (s s' : Pool W) :
  PoolInv config qs s -> exec h config sched s = Some s' ->
  PoolInv config qs s'.
Proof.
  revert s. induction sched as [| pick sched IH]; intros s Hinv; simpl.
  - by intros [= <-].
  - destruct (step h config pick s) as [s1 |] eqn:Hstep; [| discriminate].
    apply IH. by eapply PoolInv_step.
Qed.
End PoolInvariant.

(** ** What a completed batch returns *)

Lemma collectResults_run {W : Type} (h : Handler W) (config : Config) (n : Z)
    (startTime : Time) (results : list SearchResult) (w : W) :
  (run h (collectResults config n startTime results) w).1
  = mkMultiSearchResult results ((h _ TimeNow w).1 - startTime)
      (countSuccess results =? n)
      (if negb (countSuccess results =? n)
       then "Completed " +:+ Itoa (countSuccess results) +:+ "/" +:+ Itoa n
            +:+ " queries successfully"
       else "").
Proof.
  unfold collectResults. unfold_prog. cbn [run].
  destruct (h _ TimeNow w) as [now w1]. cbn [fst].
  destruct (verbose config); cbn [bind run]; [| reflexivity].
  by destruct (h _ _ w1).
Qed.

(** A batch that returns has reached a state in which [wg.Wait()] has
    returned, and returns what [collectResults] makes of its slots. *)
Lemma processMultipleQueries_returned {W : Type} (h : Handler W)
    (config : Config) (sched : list Pick) (qs : list string) (w w' : W)
    (mr : MultiSearchResult) :
  processMultipleQueries h config sched qs w = Some (mr, w') ->
  exists s,
    PoolInv config qs s /\
    mainAt s = MWaited /\
    mr = (run h (collectResults config (Z.of_nat (length qs))
                   (h _ TimeNow w).1 (results s)) (world s)).1.
Proof.
  unfold processMultipleQueries.
  destruct (h _ TimeNow w) as [startTime w0].
  destruct (workers config <? 0); [discriminate |].
  destruct (exec h config sched (initPool qs w0)) as [s |] eqn:Hexec;
    [| discriminate].
  destruct (mainAt s) eqn:Hmain; [discriminate |].
  intros Hrun. exists s. split; [| split; [exact Hmain |]].
  - eapply PoolInv_exec; [apply PoolInv_init | exact Hexec].
  - cbn [fst].
    by destruct (run h (collectResults config (Z.of_nat (length qs)) startTime
                         (results s)) (world s)); simplify_eq.
Qed.

(** Once [wg.Wait()] has returned, every slot holds a well-formed outcome
    for the query at its position. *)
Lemma PoolInv_waited {W : Type} (config : Config) (qs : list string)
    (s : Pool W) (i : nat) (q : string) :
  PoolInv config qs s ->
  mainAt s = MWaited ->
  qs !! i = Some q ->
  exists r, results s !! i = Some r /\ Query r = q /\ wellFormed r.
Proof.
  intros [Hres Hmain Hgo Hsem Hwg Hcap] Hwaited Hq.
  rewrite Hwaited in Hmain. destruct Hmain as [Hlen Hzero].
  destruct (lookup_lt_is_Some_2 (goroutines s) i) as [gr Hgr].
  { rewrite Hlen. by eapply lookup_lt_Some. }
  rewrite Hzero in Hwg. symmetry in Hwg.
  pose proof (countIf_zero _ _ _ _ Hwg Hgr) as Hdone.
  destruct (Hgo i gr Hgr) as (q' & Hq' & Hok).
  rewrite Hq in Hq'. injection Hq' as <-.
  by destruct gr.
Qed.

Lemma countSuccess_filter (results : list SearchResult) :
  countSuccess results = Z.of_nat (length (List.filter Success results)).
Proof.
  induction results as [| r results IH]; simpl; [reflexivity |].
  destruct (Success r); simpl; lia.
Qed.

Lemma countSuccess_all (results : list SearchResult) :
  countSuccess results = Z.of_nat (length results) <->
  Forall (fun r => Success r = true) results.
Proof.
  assert (Hle : forall l, countSuccess l <= Z.of_nat (length l)).
  { intros l. induction l as [| r l IH]; simpl; [lia |].
    destruct (Success r); lia. }
  induction results as [| r results IH]; simpl.
  - split; [constructor | reflexivity].
  - destruct (Success r) eqn:Hr.
    + rewrite Forall_cons. split.
      * intros H. split; [exact Hr | apply IH; lia].
      * intros [_ H]. apply IH in H. lia.
    + split.
      * intros H. specialize (Hle results). lia.
      * intros H. apply Forall_cons in H as [H _]. congruence.
Qed.

(** ** Bounded concurrency *)

(** C8. In every state a batch can reach, under every interleaving of its
    goroutines, the number of backend calls in flight is at most the
    configured number of workers. *)
Theorem inFlight_bounded {W : Type} (h : Handler W) (config : Config)
    (qs : list string) (w : W) (sched : list Pick) (s : Pool W) :
  0 <= workers config ->
  exec h config sched (initPool qs w) = Some s ->
  Z.of_nat (inFlight s) <= workers config.
Proof.
  intros Hworkers Hexec.
  assert (Hinv : PoolInv config qs s).
  { eapply PoolInv_exec; [apply PoolInv_init | exact Hexec]. }
  destruct Hinv as [_ _ _ Hsem _ Hcap].
  assert (Hle : (inFlight s <= sem s)%nat).
  { rewrite Hsem. apply countIf_le. by intros []. }
  lia.
Qed.

Lemma inFlight_bounded_witness :
  exists s,
    exec canned batchConfig busySchedule (initPool batchQueries batchWorld)
    = Some s /\
    inFlight s = 2%nat /\
    Z.of_nat (inFlight s) <= workers batchConfig.
Proof.
  destruct (exec canned batchConfig busySchedule
              (initPool batchQueries batchWorld)) as [s |] eqn:Hexec.
  - exists s. split; [reflexivity |]. split.
    + apply (f_equal (from_option inFlight O)) in Hexec.
      vm_compute in Hexec. by symmetry.
    + apply (inFlight_bounded canned batchConfig batchQueries batchWorld
               busySchedule); [simpl; lia | exact Hexec].
  - apply (f_equal (from_option inFlight O)) in Hexec.
    vm_compute in Hexec. discriminate Hexec.
Defined.

(** ** Batch success flag and failure summary *)

(** C2. The batch success flag is true exactly when every per-query
    outcome is a success; the failure summary is present exactly when the
    flag is false, and then reads "Completed k/N queries successfully" for
    the number k of successful outcomes and the number N of queries. *)
Theorem batch_success_summary {W : Type} (h : Handler W) (config : Config)
    (sched : list Pick) (qs : list string) (w w' : W)
    (mr : MultiSearchResult) :
  processMultipleQueries h config sched qs w = Some (mr, w') ->
  (MSuccess mr = true <-> Forall (fun r => Success r = true) (Results mr)) /\
  (MError mr <> "" <-> MSuccess mr = false) /\
  (MSuccess mr = false ->
   MError mr
   = "Completed "
     +:+ Itoa (Z.of_nat (length (List.filter Success (Results mr))))
     +:+ "/" +:+ Itoa (Z.of_nat (length qs)) +:+ " queries successfully").
Proof.
  intros Hrun.
  apply processMultipleQueries_returned in Hrun as (s & Hinv & _ & ->).
  rewrite collectResults_run. simpl.
  rewrite <- (inv_results _ _ _ Hinv), <- countSuccess_filter.
  split; [| split].
  - rewrite Z.eqb_eq. apply countSuccess_all.
  - destruct (countSuccess (results s) =? Z.of_nat (length (results s)));
      cbn [negb]; split; done.
  - by intros ->.
Qed.

Lemma batch_success_summary_witness :
  MError batchOutcome = "Completed 1/2 queries successfully".
Proof.
  apply (proj2 (proj2 (batch_success_summary canned batchConfig batchSchedule
                         batchQueries batchWorld batchEnd batchOutcome
                         ltac:(vm_compute; reflexivity)))).
  reflexivity.
Defined.

(** ** Every interleaving can be completed *)

Lemma countIf_lookup_pos {A : Type} (f : A -> bool) (l : list A) (i : nat)
    (x : A) :
  l !! i = Some x -> f x = true -> (0 < countIf f l)%nat.
Proof.
  intros Hi Hx. destruct (countIf f l) eqn:Hc; [| lia].
  rewrite (countIf_zero f l i x Hc Hi) in Hx. discriminate Hx.
Qed.

Section PoolProgress.
Context {W : Type}.
Variable h : Handler W.
Variable config : Config.
Variable qs : list string.

Lemma exec_app (sched1 sched2 : list Pick) (s : Pool W) :
  exec h config (sched1 ++ sched2) s
  = match exec h config sched1 s with
    | Some s1 => exec h config sched2 s1
    | None => None
    end.
Proof.
  revert s. induction sched1 as [| pick sched1 IH]; intros s; simpl;
    [reflexivity |].
  destruct (step h config pick s); [apply IH | reflexivity].
Qed.

Lemma step_PGo (s s1 : Pool W) (g : nat) (gr gr1 : Goroutine) :
  goroutines s !! g = Some gr ->
  stepGoroutine h config gr s = Some (gr1, s1) ->
  step h config (PGo g) s
  = Some (mkPool (results s1) (sem s1) (wg s1)
                 (<[g := gr1]> (goroutines s1)) (mainAt s1) (world s1)).
Proof. intros Hg Hstep. simpl. by rewrite Hg, Hstep. Qed.

(** One step of goroutine [g], then the rest of its run. *)
Lemma Finishes_step (s s1 : Pool W) (g : nat) (gr1 : Goroutine) :
  step h config (PGo g) s = Some s1 ->
  goroutines s1 = <[g := gr1]> (goroutines s) ->
  mainAt s1 = mainAt s ->
  Finishes h config s1 g ->
  Finishes h config s g.
Proof.
  intros Hstep Hgo Hmain (sched & s' & Hexec & Hgo' & Hmain').
  exists (PGo g :: sched), s'. cbn [exec]. rewrite Hstep.
  split; [exact Hexec |]. split.
  - by rewrite Hgo', Hgo, list_insert_insert_eq.
  - by rewrite Hmain'.
Qed.

Lemma Finishes_GWgDone (s : Pool W) (g : nat) :
  PoolInv config qs s ->
  goroutines s !! g = Some GWgDone ->
  Finishes h config s g.
Proof.
  intros Hinv Hg.
  pose proof (countIf_lookup_pos notDone _ _ _ Hg eq_refl) as Hpos.
  rewrite <- (inv_wg _ _ _ Hinv) in Hpos.
  destruct (wg s) as [| n] eqn:Hwg; [lia |].
  exists [PGo g]. eexists. split; [| split].
  - simpl. rewrite Hg. simpl. rewrite Hwg. reflexivity.
  - reflexivity.
  - reflexivity.
Qed.
(** A goroutine that can take a step finishes when it finishes from
    where the step leaves it. *)
Lemma Finishes_via (s s1 : Pool W) (g : nat) (gr gr1 : Goroutine) :
  PoolInv config qs s ->
  goroutines s !! g = Some gr ->
  stepGoroutine h config gr s = Some (gr1, s1) ->
  goroutines s1 = goroutines s ->
  mainAt s1 = mainAt s ->
  (forall s2,
     PoolInv config qs s2 -> goroutines s2 !! g = Some gr1 ->
     Finishes h config s2 g) ->
  Finishes h config s g.
Proof.
  intros Hinv Hg Hstep Hgo Hmain Hnext.
  pose proof (step_PGo s s1 g gr gr1 Hg Hstep) as Hs.
  eapply Finishes_step; [exact Hs | simpl; by rewrite Hgo | exact Hmain |].
  apply Hnext.
  - eapply PoolInv_step; [exact Hinv | exact Hs].
  - simpl. rewrite Hgo. apply list_lookup_insert_eq.
    by eapply lookup_lt_Some.
Qed.

Lemma Finishes_GRelease (s : Pool W) (g : nat) :
  PoolInv config qs s ->
  goroutines s !! g = Some GRelease ->
  Finishes h config s g.
Proof.
  intros Hinv Hg.
  pose proof (countIf_lookup_pos holdsSlot _ _ _ Hg eq_refl) as Hpos.
  rewrite <- (inv_sem _ _ _ Hinv) in Hpos.
  destruct (sem s) as [| n] eqn:Hsem; [lia |].
  eapply Finishes_via; [exact Hinv | exact Hg | | | | ].
  - simpl. rewrite Hsem. reflexivity.
  - reflexivity.
  - reflexivity.
  - intros s2. apply Finishes_GWgDone.
Qed.

Lemma Finishes_GLog (s : Pool W) (g : nat) (result : SearchResult) :
  PoolInv config qs s ->
  goroutines s !! g = Some (GLog result) ->
  Finishes h config s g.
Proof.
  intros Hinv Hg.
  destruct (stepGoroutine h config (GLog result) s) as [[gr1 s1] |] eqn:Hstep.
  - assert (gr1 = GRelease /\ goroutines s1 = goroutines s
            /\ mainAt s1 = mainAt s) as (-> & Hgo & Hmain).
    { simpl in Hstep. destruct (verbose config).
      - destruct (h _ _ (world s)) as [x w']. by simplify_eq.
      - by simplify_eq. }
    eapply Finishes_via; eauto. intros s2. apply Finishes_GRelease.
  - simpl in Hstep. destruct (verbose config); [| discriminate].
    by destruct (h _ _ (world s)).
Qed.

Lemma Finishes_GRun (p : Prog SearchResult) (s : Pool W) (g index : nat) :
  PoolInv config qs s ->
  goroutines s !! g = Some (GRun index p) ->
  Finishes h config s g.
Proof.
  revert s. induction p as [result | X e k IH]; intros s Hinv Hg.
  - destruct (inv_goroutines _ _ _ Hinv g _ Hg) as (q & Hq & -> & _).
    apply lookup_lt_Some in Hq. rewrite <- (inv_results _ _ _ Hinv) in Hq.
    apply Nat.ltb_lt in Hq.
    eapply Finishes_via; [exact Hinv | exact Hg | | | | ].
    + simpl. rewrite Hq. reflexivity.
    + reflexivity.
    + reflexivity.
    + intros s2. apply Finishes_GLog.
  - destruct (isBackendCall e) eqn:Hcall.
    + eapply Finishes_via; [exact Hinv | exact Hg | | | | ].
      * simpl. rewrite Hcall. reflexivity.
      * reflexivity.
      * reflexivity.
      * intros s2 Hinv2 Hg2.
        destruct (h X e (world s2)) as [x w'] eqn:Hh.
        eapply Finishes_via; [exact Hinv2 | exact Hg2 | | | | ].
        -- simpl. rewrite Hh. reflexivity.
        -- reflexivity.
        -- reflexivity.
        -- intros s3. apply IH.
    + destruct (h X e (world s)) as [x w'] eqn:Hh.
      eapply Finishes_via; [exact Hinv | exact Hg | | | | ].
      * simpl. rewrite Hcall, Hh. reflexivity.
      * reflexivity.
      * reflexivity.
      * intros s2. apply IH.
Qed.

Lemma Finishes_underWay (s : Pool W) (g : nat) (gr : Goroutine) :
  PoolInv config qs s ->
  goroutines s !! g = Some gr ->
  underWay gr = true ->
  Finishes h config s g.
Proof.
  intros Hinv Hg Hgr.
  destruct gr as [index q | index p | index X e k | result | | |];
    try discriminate Hgr.
  - by eapply Finishes_GRun.
  - destruct (h X e (world s)) as [x w'] eqn:Hh.
    eapply Finishes_via; [exact Hinv | exact Hg | | | | ].
    + simpl. rewrite Hh. reflexivity.
    + reflexivity.
    + reflexivity.
    + intros s2. apply Finishes_GRun.
  - by eapply Finishes_GLog.
  - by apply Finishes_GRelease.
  - by apply Finishes_GWgDone.
Qed.
(** With at least one slot, a worker that has not exited can be run to
    its end: one that is under way at once, one that waits for a slot
    when no other worker is under way. *)
Lemma some_worker_finishes (s : Pool W) :
  PoolInv config qs s ->
  1 <= workers config ->
  countIf notDone (goroutines s) = O \/
  exists g gr,
    goroutines s !! g = Some gr /\ notDone gr = true /\
    Finishes h config s g.
Proof.
  intros Hinv Hworkers.
  destruct (countIf_pos underWay (goroutines s))
    as [Hnone | (g & gr & Hg & Hgr)].
  - destruct (countIf_pos notDone (goroutines s))
      as [Hdone | (g & gr & Hg & Hgr)]; [by left |].
    right. exists g, gr. split; [exact Hg |]. split; [exact Hgr |].
    pose proof (countIf_zero _ _ _ _ Hnone Hg) as Hwait.
    destruct gr as [index q | | | | | |]; try discriminate.
    assert (Hsem : sem s = O).
    { rewrite (inv_sem _ _ _ Hinv).
      pose proof (countIf_le holdsSlot underWay (goroutines s)) as Hle.
      rewrite Hnone in Hle.
      assert (countIf holdsSlot (goroutines s) <= 0)%nat; [| lia].
      apply Hle. by intros []. }
    eapply Finishes_via; [exact Hinv | exact Hg | | | | ].
    + simpl. rewrite Hsem.
      destruct (Z.of_nat 0 <? workers config) eqn:Hlt; [reflexivity |].
      apply Z.ltb_ge in Hlt. lia.
    + reflexivity.
    + reflexivity.
    + intros s2. apply Finishes_GRun.
  - right. exists g, gr. split; [exact Hg |]. split; [by destruct gr |].
    by eapply Finishes_underWay.
Qed.

(** From every state that satisfies the invariant the batch can be run
    to the return of [wg.Wait()]. *)
Lemma completes (n : nat) (s : Pool W) :
  PoolInv config qs s ->
  1 <= workers config ->
  (remaining s <= n)%nat ->
  exists sched s',
    exec h config sched s = Some s' /\ mainAt s' = MWaited.
Proof.
  revert s. induction n as [| n IH]; intros s Hinv Hworkers Hn;
    unfold remaining in Hn;
    destruct (mainAt s) as [i rest |] eqn:Hmain;
    try (by exists [], s); [lia |].
  destruct (some_worker_finishes s Hinv Hworkers)
    as [Hdone | (g & gr & Hg & Hgr & sched1 & s1 & Hexec1 & Hgo1 & Hmain1)].
  - destruct rest as [| q rest].
    + exists [PMain],
        (mkPool (results s) (sem s) (wg s) (goroutines s) MWaited (world s)).
      split; [| reflexivity].
      simpl. unfold stepMain.
      by rewrite Hmain, (inv_wg _ _ _ Hinv), Hdone.
    + destruct (stepMain s) as [s1 |] eqn:Hstep;
        [| unfold stepMain in Hstep; by rewrite Hmain in Hstep].
      destruct (IH s1) as (sched & s' & Hexec & Hwaited).
      * by eapply PoolInv_stepMain.
      * exact Hworkers.
      * unfold stepMain in Hstep. rewrite Hmain in Hstep.
        injection Hstep as <-. unfold remaining. simpl.
        rewrite countIf_app. simpl in *. lia.
      * exists (PMain :: sched), s'. simpl. by rewrite Hstep.
  - destruct (IH s1) as (sched & s' & Hexec & Hwaited).
    + by eapply PoolInv_exec.
    + exact Hworkers.
    + unfold remaining. rewrite Hgo1, Hmain1, Hmain.
      pose proof (countIf_insert notDone _ _ _ GExited Hg) as Hc.
      rewrite Hgr in Hc. simpl in Hc. lia.
    + exists (sched1 ++ sched), s'. by rewrite exec_app, Hexec1.
Qed.
End PoolProgress.

(** ** Order of the batch outcome *)

(** C1. A batch of N queries returns N outcomes, and the outcome at
    position i is the outcome of the i-th query, under every interleaving
    of the workers.  With at least one worker slot the batch does return:
    every interleaving of its goroutines, however far it has got, can be
    continued to the return of [processMultipleQueries]. *)
Theorem batch_index_aligned {W : Type} (h : Handler W) (config : Config)
    (qs : list string) (w : W) :
  (1 <= workers config ->
   forall sched s,
     exec h config sched (initPool qs (h _ TimeNow w).2) = Some s ->
     exists sched',
       is_Some (processMultipleQueries h config (sched ++ sched') qs w)) /\
  (forall sched mr w',
     processMultipleQueries h config sched qs w = Some (mr, w') ->
     length (Results mr) = length qs /\
     forall i q,
       qs !! i = Some q ->
       exists r, Results mr !! i = Some r /\ Query r = q).
Proof.
  split.
  - intros Hworkers sched s Hexec.
    assert (Hinv : PoolInv config qs s).
    { eapply PoolInv_exec; [apply PoolInv_init | exact Hexec]. }
    destruct (completes h config qs (remaining s) s Hinv Hworkers (le_n _))
      as (sched' & s' & Hexec' & Hwaited).
    exists sched'. unfold processMultipleQueries.
    destruct (h _ TimeNow w) as [startTime w0]. simpl in Hexec.
    destruct (workers config <? 0) eqn:Hneg; [apply Z.ltb_lt in Hneg; lia |].
    rewrite exec_app, Hexec, Hexec', Hwaited. by eexists.
  - intros sched mr w' Hrun.
    apply processMultipleQueries_returned in Hrun as (s & Hinv & Hwaited & ->).
    rewrite collectResults_run. cbn [Results].
    split; [apply (inv_results _ _ _ Hinv) |].
    intros i q Hq.
    destruct (PoolInv_waited config qs s i q Hinv Hwaited Hq)
      as (r & Hr & Hquery & _).
    by exists r.
Qed.

Lemma batch_index_aligned_witness :
  length (Results batchOutcome) = 2%nat /\
  exists r, Results batchOutcome !! 1%nat = Some r /\ Query r = "Python".
Proof.
  destruct (proj2 (batch_index_aligned canned batchConfig batchQueries
                     batchWorld)
              batchSchedule batchOutcome batchEnd
              ltac:(vm_compute; reflexivity)) as [Hlen Hat].
  split; [exact Hlen |].
  apply (Hat 1%nat "Python"). reflexivity.
Defined.

(** ** The outcome invariant *)

(** C7. Every outcome produced by the non-streaming executor, by the
    streaming executor, by [processQuery], and every outcome of a returned
    batch is either a success with a non-empty answer and an empty failure
    reason, or a failure with a non-empty failure reason and an empty
    answer. *)
Theorem outcomes_wellFormed {W : Type} (h : Handler W) (q : string) (w : W) :
  wellFormed (run h (performSingleSearch q) w).1.1 /\
  wellFormed (run h (performSingleSearchStream q) w).1.1 /\
  (forall b, wellFormed (run h (processQuery q b) w).1) /\
  (forall config sched qs mr w',
     processMultipleQueries h config sched qs w = Some (mr, w') ->
     Forall wellFormed (Results mr)).
Proof.
  split; [| split; [| split]].
  - eapply SearchRun_reported, performSingleSearch_paths, run_Path.
  - eapply StreamRun_reported, performSingleSearchStream_paths, run_Path.
  - intros b. eapply processQuery_outcome, run_Path.
  - intros config sched qs mr w' Hrun.
    apply processMultipleQueries_returned in Hrun as (s & Hinv & Hwaited & ->).
    rewrite collectResults_run. cbn [Results].
    apply Forall_lookup_2. intros i r Hr.
    destruct (lookup_lt_is_Some_2 qs i) as [q' Hq'].
    { rewrite <- (inv_results _ _ _ Hinv). by eapply lookup_lt_Some. }
    destruct (PoolInv_waited config qs s i q' Hinv Hwaited Hq')
      as (r' & Hr' & _ & Hwf).
    by simplify_eq.
Qed.

Lemma outcomes_wellFormed_witness :
  Forall wellFormed (Results batchOutcome).
Proof.
  apply (proj2 (proj2 (proj2 (outcomes_wellFormed canned "Go" batchWorld)))
           batchConfig batchSchedule batchQueries batchOutcome batchEnd).
  vm_compute. reflexivity.
Defined.

(** * Scenarios *)

(** A stream of the chunks "Hel" and "lo" accumulates to "Hello". *)
Example stream_hello :
  (run canned (performSingleSearchStream "Go")
     (cannedStreams [[chunk "Hel"; chunk "lo"]])).1
  = (mkSearchResult "Go" "Hello" "" true "" 7 100, None).
Proof. reflexivity. Qed.

(** A backend that always errors: two attempts, then a failed outcome and
    exit status 1 from the single-query branch of [main]. *)
Example always_errors :
  generate_calls
    (trace_of canned (performSingleSearch "Go")
       (cannedAnswers [GenErr "reset"; GenErr "reset"]))
  = [GenErr "reset"; GenErr "reset"] /\
  (run canned (performSingleSearch "Go")
     (cannedAnswers [GenErr "reset"; GenErr "reset"])).1
  = (mkSearchResult "Go" "" "" false "Search failed" 3000000014 100,
     Some "failed to generate content after retries: reset") /\
  (run canned
     (mainSingleQuery (mkConfig "Go" [] false false false 3 (180 * Second)
                         false false))
     (cannedAnswers [GenErr "reset"; GenErr "reset"])).1
  = Exit 1.
Proof. by repeat split. Qed.

(** A second streaming attempt that errors after a chunk has arrived
    leaves the loop with non-empty text: the outcome is a success carrying
    the text accumulated before the error. *)
Example stream_partial_text :
  (run canned (performSingleSearchStream "Go")
     (cannedStreams [[StreamErr "reset"]; [chunk "Hel"; StreamErr "reset"]])).1
  = (mkSearchResult "Go" "Hel" "" true "" 3000000014 100, None).
Proof. reflexivity. Qed.

(** Two queries on two workers, both answered and summarized, the second
    worker completing first: two outcomes in input order, all succeeded. *)
Example batch_go_python :
  option_map fst
    (processMultipleQueries canned batchConfig
       ([PMain; PMain; PGo 1; PGo 0]
        ++ repeat (PGo 1) 13 ++ repeat (PGo 0) 13 ++ [PMain])
       batchQueries
       (cannedAnswers [text "py"; text "short py"; text "go"; text "short go"]))
  = Some (mkMultiSearchResult
            [mkSearchResult "Go" "go" "short go" true "" 7 114;
             mkSearchResult "Python" "py" "short py" true "" 7 100]
            28 true "").
Proof. vm_compute. reflexivity. Qed.

(** * Configuration *)

(** X1. [validateConfig] accepts a configuration exactly when the worker
    count is between 1 and 5 and the queries come from one source only:
    a single query and no [-q] query, or [-q] queries, no single query and
    no streaming. *)
Theorem validateConfig_accepts (config : Config) :
  validateConfig config = None <->
  1 <= workers config <= 5 /\
  ((query config <> "" /\ queries config = []) \/
   (query config = "" /\ queries config <> [] /\ stream config = false)).
Proof.
  unfold validateConfig.
  destruct (query config) as [| c s], (queries config) as [| q0 qs];
    cbn [String.eqb negb length Nat.ltb Nat.leb andb];
    try (split; [discriminate | intros [_ [[? ?] | [? [? ?]]]]; congruence]).
  - destruct (workers config <? 1) eqn:H1, (5 <? workers config) eqn:H5;
      cbn [orb];
      try (apply Z.ltb_lt in H1); try (apply Z.ltb_lt in H5);
      try (apply Z.ltb_ge in H1); try (apply Z.ltb_ge in H5);
      try (split; [discriminate | intros [? _]; lia]).
    destruct (stream config); cbn [andb].
    + split; [discriminate | intros [_ [[H _] | [_ [_ H]]]]; congruence].
    + split; [intros _ | reflexivity].
      split; [lia |]. right. by repeat split.
  - destruct (workers config <? 1) eqn:H1, (5 <? workers config) eqn:H5;
      cbn [orb];
      try (apply Z.ltb_lt in H1); try (apply Z.ltb_lt in H5);
      try (apply Z.ltb_ge in H1); try (apply Z.ltb_ge in H5);
      try (split; [discriminate | intros [? _]; lia]).
    rewrite andb_false_r.
    split; [intros _ | reflexivity].
    split; [lia |]. by left.
Qed.

Lemma fold_setFlag_not_explicit (flags : list FlagOccurrence) (c0 : Config) :
  (includeSummaryExplicit c0 = false -> includeSummary c0 = false) ->
  includeSummaryExplicit (fold_left setFlag flags c0) = false ->
  includeSummary (fold_left setFlag flags c0) = false.
Proof.
  revert c0. induction flags as [| f flags IH]; intros c0 H0; simpl;
    [exact H0 |].
  apply IH. by destruct f.
Qed.

Lemma fold_setFlag_no_summary_flag (flags : list FlagOccurrence) (c0 : Config) :
  forallb (fun f => negb (isIncludeSummary f)) flags = true ->
  includeSummary (fold_left setFlag flags c0) = includeSummary c0 /\
  includeSummaryExplicit (fold_left setFlag flags c0)
  = includeSummaryExplicit c0.
Proof.
  revert c0. induction flags as [| f flags IH]; intros c0 H; simpl in *;
    [by split |].
  apply andb_true_iff in H as [Hf H].
  destruct (IH (setFlag c0 f) H) as [-> ->]. by destruct f.
Qed.

Lemma usePositional_frame (config : Config) (args : list string) :
  queries (usePositional config args) = queries config /\
  outputJSON (usePositional config args) = outputJSON config /\
  verbose (usePositional config args) = verbose config /\
  stream (usePositional config args) = stream config /\
  workers (usePositional config args) = workers config /\
  timeout (usePositional config args) = timeout config /\
  includeSummary (usePositional config args) = includeSummary config /\
  includeSummaryExplicit (usePositional config args)
  = includeSummaryExplicit config.
Proof.
  unfold usePositional. destruct args as [| arg rest]; [by repeat split |].
  by destruct (String.eqb (query config) ""
               && (length (queries config) =? 0)%nat).
Qed.

Lemma defaultSummary_frame (config : Config) :
  query (defaultSummary config) = query config /\
  queries (defaultSummary config) = queries config /\
  outputJSON (defaultSummary config) = outputJSON config /\
  verbose (defaultSummary config) = verbose config /\
  stream (defaultSummary config) = stream config /\
  workers (defaultSummary config) = workers config /\
  timeout (defaultSummary config) = timeout config /\
  includeSummaryExplicit (defaultSummary config)
  = includeSummaryExplicit config.
Proof.
  unfold defaultSummary.
  by destruct (negb (includeSummaryExplicit config)),
       (totalQueries config =? 1), (1 <? totalQueries config).
Qed.

(** X2. When [-include-summary] is not given, [parseFlags] turns
    summaries on exactly when there is more than one query: off for a
    single query (positional, [-query] or a single [-q]) and for none. *)
Theorem parseFlags_default_summary (flags : list FlagOccurrence)
    (args : list string) :
  includeSummaryExplicit (parseFlags flags args) = false ->
  includeSummary (parseFlags flags args)
  = (1 <? totalQueries (parseFlags flags args)).
Proof.
  unfold parseFlags.
  pose proof (fold_setFlag_not_explicit flags defaultConfig (fun _ => eq_refl))
    as Hfold.
  set (c1 := fold_left setFlag flags defaultConfig) in *.
  destruct (usePositional_frame c1 args) as (_ & _ & _ & _ & _ & _ & Hs & He).
  rewrite <- Hs, <- He in Hfold.
  set (c2 := usePositional c1 args) in *.
  destruct (defaultSummary_frame c2) as (Hq & Hqs & _ & _ & _ & _ & _ & He2).
  rewrite He2. intros Hexplicit.
  assert (Ht : totalQueries (defaultSummary c2) = totalQueries c2).
  { unfold totalQueries. by rewrite Hq, Hqs. }
  rewrite Ht. unfold defaultSummary. rewrite Hexplicit. cbn [negb].
  destruct (totalQueries c2 =? 1) eqn:H1.
  - apply Z.eqb_eq in H1. by rewrite H1.
  - destruct (1 <? totalQueries c2); [reflexivity | by apply Hfold].
Qed.

Lemma parseFlags_default_summary_witness :
  includeSummary (parseFlags [FlagQ "Go"; FlagWorkers 2; FlagQ "Python"] [])
  = true.
Proof.
  apply (parseFlags_default_summary
           [FlagQ "Go"; FlagWorkers 2; FlagQ "Python"] []).
  reflexivity.
Defined.

(** X3. An explicit [-include-summary] decides: after its last
    occurrence, with value [v], summaries are on exactly when [v] is
    "true" or empty, whatever the number of queries. *)
Theorem parseFlags_explicit_summary (before after : list FlagOccurrence)
    (v : string) (args : list string) :
  forallb (fun f => negb (isIncludeSummary f)) after = true ->
  includeSummaryExplicit
    (parseFlags (before ++ FlagIncludeSummary v :: after) args) = true /\
  includeSummary (parseFlags (before ++ FlagIncludeSummary v :: after) args)
  = (String.eqb v "true" || String.eqb v "").
Proof.
  intros Hafter. unfold parseFlags.
  rewrite fold_left_app. cbn [fold_left].
  destruct (fold_setFlag_no_summary_flag after
              (setFlag (fold_left setFlag before defaultConfig)
                 (FlagIncludeSummary v)) Hafter) as [Hs He].
  cbn [setFlag includeSummary includeSummaryExplicit] in Hs, He.
  set (c1 := fold_left setFlag after _) in *.
  destruct (usePositional_frame c1 args) as (_ & _ & _ & _ & _ & _ & Hs2 & He2).
  rewrite <- Hs2 in Hs. rewrite <- He2 in He.
  unfold defaultSummary. rewrite He. cbn [negb]. by split.
Qed.

Lemma parseFlags_explicit_summary_witness :
  includeSummaryExplicit
    (parseFlags ([FlagQ "Go"; FlagQ "Python"]
                 ++ FlagIncludeSummary "false" :: [FlagJSON true]) []) = true /\
  includeSummary
    (parseFlags ([FlagQ "Go"; FlagQ "Python"]
                 ++ FlagIncludeSummary "false" :: [FlagJSON true]) []) = false.
Proof.
  apply (parseFlags_explicit_summary [FlagQ "Go"; FlagQ "Python"]
           [FlagJSON true] "false" []).
  reflexivity.
Defined.

(** X4. Positional arguments.  When [-query] or [-q] gave a query, the
    positional arguments are ignored; when neither did, the first
    positional argument is the single query and the others are ignored.
    The positional arguments never touch the [-q] queries and the other
    settings. *)
Theorem parseFlags_positional (flags : list FlagOccurrence)
    (args : list string) :
  let c0 := parseFlags flags [] in
  let c := parseFlags flags args in
  (query c0 <> "" \/ queries c0 <> [] -> c = c0) /\
  (query c0 = "" -> queries c0 = [] ->
   forall arg rest, args = arg :: rest -> query c = arg) /\
  queries c = queries c0 /\
  outputJSON c = outputJSON c0 /\
  verbose c = verbose c0 /\
  stream c = stream c0 /\
  workers c = workers c0 /\
  timeout c = timeout c0 /\
  includeSummaryExplicit c = includeSummaryExplicit c0.
Proof.
  cbv zeta. unfold parseFlags.
  set (c1 := fold_left setFlag flags defaultConfig).
  change (usePositional c1 []) with c1.
  destruct (usePositional_frame c1 args)
    as (Hqs & Hj & Hv & Hst & Hw & Ht & _ & He).
  destruct (defaultSummary_frame c1)
    as (Dq & Dqs & Dj & Dv & Dst & Dw & Dt & De).
  destruct (defaultSummary_frame (usePositional c1 args))
    as (Pq & Pqs & Pj & Pv & Pst & Pw & Pt & Pe).
  rewrite Dq, Dqs.
  split; [| split; [| repeat split; congruence]].
  - intros Hgiven. f_equal. unfold usePositional.
    destruct args as [| arg rest]; [reflexivity |].
    destruct Hgiven as [Hq | Hq].
    + apply String.eqb_neq in Hq. by rewrite Hq.
    + destruct (queries c1); [done |]. cbn [length Nat.eqb].
      by rewrite andb_false_r.
  - intros Hq Hq0 arg rest ->. rewrite Pq. unfold usePositional.
    by rewrite Hq, Hq0.
Qed.

Lemma parseFlags_positional_witness :
  parseFlags [FlagQuery "Go"] ["Python"; "Rust"] = parseFlags [FlagQuery "Go"] [].
Proof.
  apply (proj1 (parseFlags_positional [FlagQuery "Go"] ["Python"; "Rust"])).
  left. discriminate.
Defined.

(** * Traces of the executors *)

Lemma searchAttempts_trace (req : Request) (q : string) (tr : list Event)
    (r : GenResult) :
  Path (searchAttempts req q 0 1) tr r ->
  retryTrace req (searchRetry q) tr r.
Proof.
  intros H. cbn [searchAttempts] in H. unfold_prog. path_inv.
  all: repeat match goal with
    | E : answered _ = true |- _ => apply answered_true in E
    | E : answered _ = false |- _ => apply answered_false in E
    | x : unit |- _ => destruct x
    end.
  all: first [ by left | right; eexists; by split ].
Qed.

Lemma summaryAttempts_trace (req : Request) (tr : list Event) (r : GenResult) :
  Path (summaryAttempts req 0 1) tr r ->
  retryTrace req [Ev (TimeSleep (3 * Second)) tt] tr r.
Proof.
  intros H. cbn [summaryAttempts] in H. unfold_prog. path_inv.
  all: repeat match goal with
    | E : answered _ = true |- _ => apply answered_true in E
    | E : answered _ = false |- _ => apply answered_false in E
    | x : unit |- _ => destruct x
    end.
  all: first [ by left | right; eexists; by split ].
Qed.

Lemma performSingleSearch_trace (q : string) (tr : list Event)
    (a : SearchResult * option GoError) :
  Path (performSingleSearch q) tr a ->
  exists t0 t1 t2 loop r,
    tr = [Ev TimeNow t0; Ev TimeNow t1;
          Ev (SlogInfo "Performing search" [("query", LStr q)]) tt]
         ++ loop ++ [Ev TimeNow t2] /\
    retryTrace (SearchRequest q t1) (searchRetry q) loop r.
Proof.
  intros H. unfold performSingleSearch in H. unfold_prog. path_inv.
  all: match goal with
    | H : Path (searchAttempts _ _ _ _) _ _ |- _ =>
        apply searchAttempts_trace in H
    end.
  all: repeat match goal with x : unit |- _ => destruct x end.
  all: do 5 eexists; split; [reflexivity | eassumption].
Qed.

(** What [generateSummary] returns for the answer its loop leaves. *)
Lemma generateSummary_trace (q response : string) (tr : list Event)
    (a : string * option GoError) :
  Path (generateSummary q response) tr a ->
  exists r,
    retryTrace (SummaryRequest q response) [Ev (TimeSleep (3 * Second)) tt]
      tr r /\
    a = match r with
        | GenErr err =>
            ("", Some ("failed to generate summary after retries: " +:+ err))
        | GenOk result =>
            if String.eqb (Text result) ""
            then ("", Some "received empty summary after retries")
            else (Text result, None)
        end.
Proof.
  intros H. unfold generateSummary in H. unfold_prog.
  apply Path_bind in H. destruct H as (r & tr1 & tr2 & -> & H1 & H).
  apply summaryAttempts_trace in H1. exists r.
  destruct r as [err | result]; [| destruct (String.eqb (Text result) "")];
    destruct H as [-> ->]; rewrite app_nil_r; by split.
Qed.

Lemma string_app_nil_r (s : string) : s +:+ "" = s.
Proof.
  induction s as [| c s IH]; [reflexivity |].
  change (String c (s +:+ "") = String c s). by f_equal.
Qed.

Lemma string_app_assoc (s1 s2 s3 : string) :
  (s1 +:+ s2) +:+ s3 = s1 +:+ (s2 +:+ s3).
Proof.
  induction s1 as [| c s1 IH]; [reflexivity |].
  change (String c ((s1 +:+ s2) +:+ s3) = String c (s1 +:+ (s2 +:+ s3))).
  by f_equal.
Qed.

(** What an attempt accumulates is what it echoes. *)
Lemma accumulate_echoed (items : list StreamItem) (acc : string) :
  (accumulate items acc).1 = acc +:+ concatStrings (echoed items).
Proof.
  unfold concatStrings. revert acc.
  induction items as [| [err | response] rest IH]; intros acc;
    cbn [accumulate echoed fold_right fst].
  - by rewrite string_app_nil_r.
  - by rewrite string_app_nil_r.
  - destruct (0 <? Candidates response)%nat; cbn [fold_right]; [| apply IH].
    by rewrite IH, string_app_assoc.
Qed.

Lemma consumeStream_echo (items : list StreamItem) (acc : string)
    (tr : list Event) (a : string * option GoError) :
  Path (consumeStream items acc) tr a ->
  tr = map (fun c => Ev (Stdout c) tt) (echoed items).
Proof.
  revert acc tr.
  induction items as [| [err | response] rest IH]; intros acc tr H; simpl in H.
  - by destruct H as [-> _].
  - by destruct H as [-> _].
  - simpl. destruct (0 <? Candidates response)%nat.
    + unfold_prog. destruct H as ([] & tr' & -> & H). simpl.
      f_equal. by eapply IH.
    + by eapply IH.
Qed.

Lemma streamAttempts_trace (req : Request) (q : string) (tr : list Event)
    (a : string * option GoError) :
  Path (streamAttempts req q 0 None 1) tr a ->
  (exists s1, tr = streamAttempt req s1) \/
  (exists s1 s2,
     tr = streamAttempt req s1 ++ streamRetry q ++ streamAttempt req s2).
Proof.
  intros H. cbn [streamAttempts] in H. unfold_prog. path_inv.
  all: repeat match goal with
    | H : Path (consumeStream _ _) _ _ |- _ => apply consumeStream_echo in H
    | x : unit |- _ => destruct x
    end; subst.
  - left. eexists. unfold streamAttempt. simpl. by rewrite app_nil_r.
  - right. eexists _, _. unfold streamAttempt. simpl. by rewrite app_nil_r.
  - right. eexists _, _. unfold streamAttempt. simpl. by rewrite app_nil_r.
Qed.

Lemma performSingleSearchStream_trace (q : string) (tr : list Event)
    (a : SearchResult * option GoError) :
  Path (performSingleSearchStream q) tr a ->
  exists t0 t1 t2 loop,
    tr = [Ev TimeNow t0; Ev TimeNow t1;
          Ev (SlogInfo "Performing search" [("query", LStr q)]) tt;
          Ev (Stdout (streamBanner q)) tt]
         ++ loop ++ [Ev (Stdout streamRule) tt; Ev TimeNow t2] /\
    ((exists s1, loop = streamAttempt (SearchRequest q t1) s1) \/
     (exists s1 s2,
        loop = streamAttempt (SearchRequest q t1) s1 ++ streamRetry q
               ++ streamAttempt (SearchRequest q t1) s2)).
Proof.
  intros H. unfold performSingleSearchStream in H. unfold_prog. path_inv.
  all: match goal with
    | H : Path (streamAttempts _ _ _ _ _) _ _ |- _ =>
        apply streamAttempts_trace in H
    end.
  all: repeat match goal with x : unit |- _ => destruct x end.
  all: do 4 eexists; split; [reflexivity | eassumption].
Qed.

Lemma retryTrace_calls (req : Request) (between : list Event)
    (tr : list Event) (r : GenResult) :
  generate_calls between = [] ->
  retryTrace req between tr r -> twoAttempts tr r.
Proof.
  intros Hb [[-> Hok] | (r1 & -> & Hfail)]; unfold twoAttempts.
  - by left.
  - right. exists r1. rewrite !generate_calls_app, Hb. by split.
Qed.

Lemma retryTrace_pace (req : Request) (between : list Event)
    (tr : list Event) (r : GenResult) :
  pace between = [Pause (3 * Second)] ->
  retryTrace req between tr r -> retryPace (pace tr).
Proof.
  intros Hb [[-> Hok] | (r1 & -> & Hfail)]; unfold retryPace, pace in *.
  - by left.
  - right. by rewrite !omap_app, Hb.
Qed.

Lemma retryTrace_requests (req : Request) (between : list Event)
    (tr : list Event) (r : GenResult) :
  backend_requests between = [] ->
  retryTrace req between tr r -> onceOrTwice req (backend_requests tr).
Proof.
  intros Hb [[-> Hok] | (r1 & -> & Hfail)];
    unfold onceOrTwice, backend_requests in *.
  - by left.
  - right. by rewrite !omap_app, Hb.
Qed.

Lemma retryTrace_output (req : Request) (between : list Event)
    (tr : list Event) (r : GenResult) :
  stdout between = [] -> (forall level, stderr level between = []) ->
  retryTrace req between tr r ->
  stdout tr = [] /\ forall level, stderr level tr = [].
Proof.
  intros Ho He [[-> Hok] | (r1 & -> & Hfail)]; unfold stdout, stderr in *.
  - by split.
  - split; [by rewrite !omap_app, Ho |].
    intros level. by rewrite !omap_app, He.
Qed.

Lemma retryTrace_stdout (req : Request) (between : list Event)
    (tr : list Event) (r : GenResult) :
  stdout between = [] -> retryTrace req between tr r -> stdout tr = [].
Proof.
  intros Ho [[-> Hok] | (r1 & -> & Hfail)]; unfold stdout in *;
    [reflexivity |].
  by rewrite !omap_app, Ho.
Qed.

(** * The summarizer *)

(** X5. [generateSummary] makes one or two one-shot calls, the second
    exactly when the first errored or returned empty text, and returns
    what its last call gave: the text with no error when that text is not
    empty, and otherwise an empty summary with the error "failed to
    generate summary after retries: ..." or "received empty summary after
    retries". *)
Theorem generateSummary_retry {W : Type} (h : Handler W) (q response : string)
    (w : W) :
  let tr := trace_of h (generateSummary q response) w in
  exists r,
    ((generate_calls tr = [r] /\ ~ failedAttempt r) \/
     (exists r1, generate_calls tr = [r1; r] /\ failedAttempt r1)) /\
    stream_calls tr = [] /\
    (run h (generateSummary q response) w).1 = summaryResult r.
Proof.
  intros tr.
  pose proof (run_Path h (generateSummary q response) w) as HP.
  destruct (generateSummary_paths _ _ _ _ HP) as (_ & Hs & _).
  apply generateSummary_trace in HP as (r & Htr & Hout).
  exists r. split; [| split; [exact Hs | exact Hout]].
  eapply retryTrace_calls; [| exact Htr]. reflexivity.
Qed.

(** * Rhythm, requests and output of the executors *)

Lemma performSingleSearch_shape (q : string) (tr : list Event)
    (a : SearchResult * option GoError) :
  Path (performSingleSearch q) tr a ->
  retryPace (pace tr) /\
  (exists t0 t1 t2,
     clock_readings tr = [t0; t1; t2] /\
     onceOrTwice (SearchRequest q t1) (backend_requests tr)) /\
  stdout tr = [] /\
  forall level,
    stderr level tr
    = executorLog level "Retrying search request" q
        (length (backend_requests tr)).
Proof.
  intros HP.
  apply performSingleSearch_trace in HP
    as (t0 & t1 & t2 & loop & r & -> & Hloop).
  pose proof (retryTrace_pace _ (searchRetry q) _ _ eq_refl Hloop) as Hpace.
  pose proof (retryTrace_requests _ (searchRetry q) _ _ eq_refl Hloop) as Hreq.
  pose proof (retryTrace_stdout _ (searchRetry q) _ _ eq_refl Hloop) as Hout.
  assert (Hclock : clock_readings loop = []).
  { destruct Hloop as [[-> _] | (r1 & -> & _)]; reflexivity. }
  assert (Hlog : forall level,
             stderr level
               ([Ev TimeNow t0; Ev TimeNow t1;
                 Ev (SlogInfo "Performing search" [("query", LStr q)]) tt]
                ++ loop ++ [Ev TimeNow t2])
             = executorLog level "Retrying search request" q
                 (length
                    (backend_requests
                       ([Ev TimeNow t0; Ev TimeNow t1;
                         Ev (SlogInfo "Performing search"
                               [("query", LStr q)]) tt]
                        ++ loop ++ [Ev TimeNow t2])))).
  { intros level. destruct Hloop as [[-> _] | (r1 & -> & _)];
      by destruct level. }
  split; [| split; [| split; [| exact Hlog]]];
    unfold pace, backend_requests, stdout, clock_readings in *;
    rewrite !omap_app; cbn [omap app]; simpl;
    rewrite ?Hout, ?Hclock, ?app_nil_r.
  - exact Hpace.
  - exists t0, t1, t2. by split.
  - reflexivity.
Qed.

Lemma generateSummary_shape (q response : string) (tr : list Event)
    (a : string * option GoError) :
  Path (generateSummary q response) tr a ->
  retryPace (pace tr) /\
  onceOrTwice (SummaryRequest q response) (backend_requests tr) /\
  stdout tr = [] /\ forall level, stderr level tr = [].
Proof.
  intros HP. apply generateSummary_trace in HP as (r & Htr & _).
  split; [eapply retryTrace_pace; [| exact Htr]; reflexivity |].
  split; [eapply retryTrace_requests; [| exact Htr]; reflexivity |].
  eapply retryTrace_output; [| | exact Htr]; [reflexivity |].
  by intros [].
Qed.

Lemma omap_echo {B : Type} (f : Event -> option B) (l : list string) :
  (forall c, f (Ev (Stdout c) tt) = None) ->
  omap f (map (fun c => Ev (Stdout c) tt) l) = [].
Proof.
  intros Hf. induction l as [| c l IH]; simpl; [reflexivity |].
  by rewrite Hf.
Qed.

Lemma stdout_echo (l : list string) :
  stdout (map (fun c => Ev (Stdout c) tt) l) = l.
Proof.
  unfold stdout. induction l as [| c l IH]; simpl; [reflexivity |].
  by f_equal.
Qed.

Lemma performSingleSearchStream_shape (q : string) (tr : list Event)
    (a : SearchResult * option GoError) :
  Path (performSingleSearchStream q) tr a ->
  retryPace (pace tr) /\
  (exists t0 t1 t2,
     clock_readings tr = [t0; t1; t2] /\
     onceOrTwice (SearchRequest q t1) (backend_requests tr)) /\
  (forall level,
     stderr level tr
     = executorLog level "Retrying stream search request" q
         (length (backend_requests tr))) /\
  ((exists s1,
      stream_calls tr = [s1] /\
      stdout tr = [streamBanner q] ++ echoed s1 ++ [streamRule]) \/
   (exists s1 s2,
      stream_calls tr = [s1; s2] /\
      stdout tr = [streamBanner q] ++ echoed s1 ++ [retryNotice]
                  ++ echoed s2 ++ [streamRule])).
Proof.
  intros HP.
  apply performSingleSearchStream_trace in HP
    as (t0 & t1 & t2 & loop & -> & Hloop).
  unfold pace, backend_requests, stdout, stderr, clock_readings, stream_calls,
    retryPace, onceOrTwice.
  destruct Hloop as [(s1 & ->) | (s1 & s2 & ->)]; unfold streamAttempt;
    rewrite !omap_app; cbn [omap app]; simpl;
    rewrite ?omap_app; simpl;
    rewrite ?(omap_echo beat_of), ?(omap_echo request_of),
      ?(omap_echo clock_reading), ?(omap_echo stream_answer) by reflexivity;
    fold (stdout (map (fun c => Ev (Stdout c) tt) (echoed s1)));
    try fold (stdout (map (fun c => Ev (Stdout c) tt) (echoed s2)));
    rewrite ?stdout_echo; simpl.
  - split; [by left |].
    split; [exists t0, t1, t2; split; [reflexivity | by left] |].
    split; [| left; by exists s1].
    intros level. rewrite !omap_app. simpl.
    repeat match goal with
      | |- context [list_omap _ _ ?f ?l] =>
          change (list_omap _ _ f l) with (omap f l)
      end.
    rewrite !(omap_echo (stderr_of level)) by reflexivity.
    by destruct level.
  - split; [by right |].
    split; [exists t0, t1, t2; split; [reflexivity | by right] |].
    split; [| right; exists s1, s2; split; [reflexivity |];
              by rewrite <- app_assoc].
    intros level. rewrite !omap_app. simpl.
    repeat match goal with
      | |- context [list_omap _ _ ?f ?l] =>
          change (list_omap _ _ f l) with (omap f l)
      end.
    rewrite !(omap_echo (stderr_of level)) by reflexivity.
    by destruct level.
Qed.

Lemma attemptText_echoed (items : list StreamItem) :
  attemptText items = concatStrings (echoed items).
Proof. unfold attemptText. by rewrite accumulate_echoed. Qed.

Lemma processQuery_shape (q : string) (b : bool) (tr : list Event)
    (r : SearchResult) :
  Path (processQuery q b) tr r ->
  (exists p1 p2,
     pace tr = p1 ++ p2 /\ retryPace p1 /\ summaryPace b r p2) /\
  (exists t l1 l2,
     backend_requests tr = l1 ++ l2 /\
     onceOrTwice (SearchRequest q t) l1 /\ summaryRequests q b r l2) /\
  stdout tr = [].
Proof.
  intros HP. apply processQuery_paths in HP
    as (t0 & tr1 & sr & err & tr2 & -> & HP1 & Hr).
  destruct (performSingleSearch_paths _ _ _ HP1) as [HR _].
  destruct (performSingleSearch_shape _ _ _ HP1)
    as (Hpace & (t0' & t1 & t2 & _ & Hreq) & Hout & _).
  change (Ev TimeNow t0 :: tr1 ++ tr2) with ([Ev TimeNow t0] ++ tr1 ++ tr2).
  unfold pace, backend_requests, stdout, summaryPace, summaryRequests
    in *.
  rewrite !omap_app, Hout.
  assert (Hsr : err = None -> Success sr = true).
  { intros ->. by inversion HR. }
  destruct err as [e |].
  - destruct Hr as (t & -> & ->). simpl.
    split; [exists (omap beat_of tr1), []; by rewrite app_nil_r |].
    split; [| done].
    exists t1, (omap request_of tr1), []. by rewrite app_nil_r.
  - rewrite (Hsr eq_refl) in Hr. cbn [andb] in Hr. destruct b.
    + destruct Hr as (summary & serr & HP2 & ->).
      destruct (generateSummary_shape _ _ _ _ HP2)
        as (Hpace2 & Hreq2 & Hout2 & _).
      unfold pace, backend_requests, stdout in *.
      rewrite Hout2. simpl.
      split; [by exists (omap beat_of tr1), (omap beat_of tr2) |].
      split; [| done].
      by exists t1, (omap request_of tr1), (omap request_of tr2).
    + destruct Hr as [-> ->]. simpl.
      split; [exists (omap beat_of tr1), []; by rewrite app_nil_r |].
      split; [| done].
      exists t1, (omap request_of tr1), []. by rewrite app_nil_r.
Qed.

(** X6. Each retry loop makes one backend call, or two calls with one
    sleep of three seconds between them, and sleeps at no other time:
    the non-streaming executor, the streaming executor and the summarizer.
    [processQuery] is one such loop for the search, followed by one for
    the summary exactly when the search succeeded and summaries were
    requested. *)
Theorem executors_pace {W : Type} (h : Handler W) (q response : string)
    (w : W) :
  retryPace (pace (trace_of h (performSingleSearch q) w)) /\
  retryPace (pace (trace_of h (performSingleSearchStream q) w)) /\
  retryPace (pace (trace_of h (generateSummary q response) w)) /\
  forall b,
    exists p1 p2,
      pace (trace_of h (processQuery q b) w) = p1 ++ p2 /\
      retryPace p1 /\
      summaryPace b (run h (processQuery q b) w).1 p2.
Proof.
  split; [| split; [| split]].
  - eapply performSingleSearch_shape, run_Path.
  - eapply performSingleSearchStream_shape, run_Path.
  - eapply generateSummary_shape, run_Path.
  - intros b. eapply processQuery_shape, run_Path.
Qed.

(** X7. Both executors build their request once: every backend call of
    one execution carries the same request, made of the query and of the
    second clock reading (the one taken for the date), so a retry re-sends
    the first attempt's request unchanged. *)
Theorem executors_requests {W : Type} (h : Handler W) (q : string) (w : W) :
  (exists t0 t1 t2,
     clock_readings (trace_of h (performSingleSearch q) w) = [t0; t1; t2] /\
     onceOrTwice (SearchRequest q t1)
       (backend_requests (trace_of h (performSingleSearch q) w))) /\
  (exists t0 t1 t2,
     clock_readings (trace_of h (performSingleSearchStream q) w)
     = [t0; t1; t2] /\
     onceOrTwice (SearchRequest q t1)
       (backend_requests (trace_of h (performSingleSearchStream q) w))).
Proof.
  split.
  - eapply performSingleSearch_shape, run_Path.
  - eapply performSingleSearchStream_shape, run_Path.
Qed.

(** X8. [processQuery] sends to the backend the search request of its
    query, once or twice, and then calls the summarizer exactly when the
    outcome is a success and summaries were requested, on the query and
    the answer text the outcome carries; a failed query is never
    summarized. *)
Theorem processQuery_requests {W : Type} (h : Handler W) (q : string)
    (b : bool) (w : W) :
  exists t l1 l2,
    backend_requests (trace_of h (processQuery q b) w) = l1 ++ l2 /\
    onceOrTwice (SearchRequest q t) l1 /\
    summaryRequests q b (run h (processQuery q b) w).1 l2.
Proof. eapply processQuery_shape, run_Path. Qed.

(** X9. The non-streaming executor, the summarizer and [processQuery]
    write nothing to standard output.  To standard error they write
    nothing but the log records of the executor: none when the logger is
    at level Error (no [-verbose]), and at level Info the record
    "Performing search", followed by the record "Retrying search request"
    exactly when a second call was made.  The summarizer logs nothing,
    and [processQuery] adds nothing to what its executor logs. *)
Theorem executors_quiet {W : Type} (h : Handler W) (q response : string)
    (b : bool) (w : W) :
  (stdout (trace_of h (performSingleSearch q) w) = [] /\
   forall level,
     stderr level (trace_of h (performSingleSearch q) w)
     = executorLog level "Retrying search request" q
         (length (backend_requests (trace_of h (performSingleSearch q) w)))) /\
  (stdout (trace_of h (generateSummary q response) w) = [] /\
   forall level,
     stderr level (trace_of h (generateSummary q response) w) = []) /\
  (stdout (trace_of h (processQuery q b) w) = [] /\
   forall level,
     stderr level (trace_of h (processQuery q b) w)
     = stderr level (trace_of h (performSingleSearch q) (h _ TimeNow w).2)).
Proof.
  split; [| split].
  - eapply performSingleSearch_shape, run_Path.
  - eapply generateSummary_shape, run_Path.
  - split; [eapply processQuery_shape, run_Path |].
    intros level. rewrite processQuery_trace. cbv zeta.
    match goal with
    | |- stderr _ (?ev :: ?l) = _ => change (ev :: l) with ([ev] ++ l)
    end.
    unfold stderr. rewrite !omap_app. cbn [omap list_omap stderr_of app].
    rewrite <- (app_nil_r (omap (stderr_of level) (trace_of h _ _))) at 2.
    f_equal.
    destruct ((run h (performSingleSearch q) (h _ TimeNow w).2).1.2);
      [reflexivity |].
    destruct (Success _ && b); [| reflexivity].
    eapply generateSummary_shape, run_Path.
Qed.

(** X10. The streaming executor prints the banner of the query, the
    chunks of the first attempt as they arrive, for a retry the notice
    and the chunks of the second attempt, then the rule.  To standard
    error it writes nothing but its log records: none when the logger is
    at level Error (no [-verbose]), and at level Info the record
    "Performing search", followed by the record "Retrying stream search
    request" exactly when a second call was made.  The answer of a
    successful outcome is the concatenation of the chunks echoed by the
    last attempt. *)
Theorem performSingleSearchStream_echo {W : Type} (h : Handler W) (q : string)
    (w : W) :
  let tr := trace_of h (performSingleSearchStream q) w in
  let out := (run h (performSingleSearchStream q) w).1 in
  (forall level,
     stderr level tr
     = executorLog level "Retrying stream search request" q
         (length (backend_requests tr))) /\
  ((exists s1,
      stream_calls tr = [s1] /\
      stdout tr = [streamBanner q] ++ echoed s1 ++ [streamRule] /\
      Success out.1 = true /\
      Response out.1 = concatStrings (echoed s1)) \/
   (exists s1 s2,
      stream_calls tr = [s1; s2] /\
      stdout tr = [streamBanner q] ++ echoed s1 ++ [retryNotice]
                  ++ echoed s2 ++ [streamRule] /\
      (Success out.1 = true ->
       Response out.1 = concatStrings (echoed s2)))).
Proof.
  intros tr out.
  pose proof (run_Path h (performSingleSearchStream q) w) as HP.
  fold tr out in HP.
  destruct (performSingleSearchStream_paths _ _ _ HP) as [HR _].
  destruct (performSingleSearchStream_shape _ _ _ HP)
    as (_ & _ & Herr & Hshape).
  split; [exact Herr |].
  destruct Hshape as [(s1 & Hcalls & Hout) | (s1 & s2 & Hcalls & Hout)];
    rewrite Hcalls in HR; inversion HR; subst.
  - left. exists s1. rewrite <- attemptText_echoed. by repeat split.
  - right. exists s1, s2. rewrite <- attemptText_echoed. by repeat split.
  - right. exists s1, s2. by repeat split.
  - right. exists s1, s2. by repeat split.
Qed.

(** * More on the batch *)

Section PoolSlots.
Context {W : Type}.
Variable h : Handler W.
Variable config : Config.
Variable qs : list string.

Lemma yields_results (results results' : list SearchResult) (j : nat)
    (q : string) (gr : Goroutine) :
  results' !! j = results !! j ->
  yields config results j q gr -> yields config results' j q gr.
Proof. intros Hj. destruct gr; simpl; by rewrite ?Hj. Qed.

Lemma SlotsInv_init (w : W) : SlotsInv config qs (initPool qs w).
Proof. intros j gr q Hj. discriminate Hj. Qed.

Lemma SlotsInv_stepMain (s s' : Pool W) :
  SlotsInv config qs s -> stepMain s = Some s' -> SlotsInv config qs s'.
Proof.
  intros Hs. unfold stepMain.
  destruct (mainAt s) as [i [| q rest] |]; [| | discriminate].
  - destruct (wg s); [| discriminate]. intros [= <-]. exact Hs.
  - intros [= <-] j gr q0 Hj Hq. simpl in *.
    apply lookup_app_Some in Hj as [Hj | [_ Hj]]; [by eapply Hs |].
    destruct (j - length (goroutines s))%nat; [| done].
    simpl in Hj. by simplify_eq.
Qed.

Lemma SlotsInv_stepGoroutine (s s' : Pool W) (g : nat) (gr gr' : Goroutine) :
  PoolInv config qs s ->
  SlotsInv config qs s ->
  goroutines s !! g = Some gr ->
  stepGoroutine h config gr s = Some (gr', s') ->
  SlotsInv config qs
    (mkPool (results s') (sem s') (wg s') (<[g := gr']> (goroutines s'))
            (mainAt s') (world s')).
Proof.
  intros Hinv Hs Hg Hstep.
  destruct (inv_goroutines _ _ _ Hinv g gr Hg) as (q & Hq & Hok).
  pose proof (Hs g gr q Hg Hq) as Hy.
  assert (Hgoal : forall results',
             goroutines s' = goroutines s ->
             (forall j, j <> g -> results' !! j = results s !! j) ->
             yields config results' g q gr' ->
             results' = results s' ->
             SlotsInv config qs
               (mkPool (results s') (sem s') (wg s')
                       (<[g := gr']> (goroutines s')) (mainAt s') (world s'))).
  { intros results' Hgo Hother Hself -> j gr0 q0 Hj Hq0. simpl in *.
    rewrite Hgo in Hj. destruct (decide (j = g)) as [-> | Hne].
    - rewrite list_lookup_insert_eq in Hj by (by eapply lookup_lt_Some).
      by simplify_eq.
    - rewrite list_lookup_insert_ne in Hj by done.
      eapply yields_results; [by apply Hother | by eapply Hs]. }
  destruct gr as [index q' | index [result | X e k] | index X e k
                 | result | | |]; simpl in Hstep.
  - destruct (Z.of_nat (sem s) <? workers config); [| discriminate].
    injection Hstep as <- <-. destruct Hok as [_ ->].
    apply (Hgoal (results s)); try done.
    simpl. intros tr r Hp. by exists tr.
  - destruct (index <? length (results s))%nat eqn:Hlt; [| discriminate].
    injection Hstep as <- <-. destruct Hok as [-> _].
    apply Nat.ltb_lt in Hlt.
    apply (Hgoal (<[g := result]> (results s))); try done.
    + intros j Hj. by apply list_lookup_insert_ne.
    + destruct (Hy [] result (conj eq_refl eq_refl)) as [tr0 Hp].
      exists result, tr0. split; [by apply list_lookup_insert_eq | exact Hp].
  - destruct (isBackendCall e).
    + injection Hstep as <- <-. apply (Hgoal (results s)); try done.
      simpl. intros x tr r Hp. apply (Hy (Ev e x :: tr)). by exists x, tr.
    + destruct (h X e (world s)) as [x w']. injection Hstep as <- <-.
      apply (Hgoal (results s)); try done.
      simpl. intros tr r Hp. apply (Hy (Ev e x :: tr)). by exists x, tr.
  - destruct (h X e (world s)) as [x w']. injection Hstep as <- <-.
    apply (Hgoal (results s)); try done.
    simpl. intros tr r Hp. by apply (Hy x tr).
  - destruct (verbose config).
    + destruct (h _ _ (world s)) as [x w']. injection Hstep as <- <-.
      by apply (Hgoal (results s)).
    + injection Hstep as <- <-. by apply (Hgoal (results s)).
  - destruct (sem s); [discriminate |]. injection Hstep as <- <-.
    by apply (Hgoal (results s)).
  - destruct (wg s); [discriminate |]. injection Hstep as <- <-.
    by apply (Hgoal (results s)).
  - discriminate.
Qed.

Lemma SlotsInv_exec (sched : list Pick) (s s' : Pool W) :
  PoolInv config qs s ->
  SlotsInv config qs s ->
  exec h config sched s = Some s' ->
  SlotsInv config qs s'.
Proof.
  revert s. induction sched as [| pick sched IH]; intros s Hinv Hs; simpl.
  - by intros [= <-].
  - destruct (step h config pick s) as [s1 |] eqn:Hstep; [| discriminate].
    apply IH; [by eapply PoolInv_step |].
    destruct pick as [| g]; simpl in Hstep.
    + by eapply SlotsInv_stepMain.
    + destruct (goroutines s !! g) as [gr |] eqn:Hg; [| discriminate].
      destruct (stepGoroutine h config gr s) as [[gr' s2] |] eqn:Hgr;
        [| discriminate].
      injection Hstep as <-. by eapply SlotsInv_stepGoroutine.
Qed.
End PoolSlots.

Lemma SlotsInv_waited {W : Type} (config : Config) (qs : list string)
    (s : Pool W) (i : nat) (q : string) :
  PoolInv config qs s ->
  SlotsInv config qs s ->
  mainAt s = MWaited ->
  qs !! i = Some q ->
  exists r tr,
    results s !! i = Some r /\
    Path (processQuery q (includeSummary config)) tr r.
Proof.
  intros [Hres Hmain Hgo Hsem Hwg Hcap] Hs Hwaited Hq.
  rewrite Hwaited in Hmain. destruct Hmain as [Hlen Hzero].
  destruct (lookup_lt_is_Some_2 (goroutines s) i) as [gr Hgr].
  { rewrite Hlen. by eapply lookup_lt_Some. }
  rewrite Hzero in Hwg. symmetry in Hwg.
  pose proof (countIf_zero _ _ _ _ Hwg Hgr) as Hdone.
  pose proof (Hs i gr q Hgr Hq) as Hy.
  by destruct gr.
Qed.

Lemma processMultipleQueries_slots {W : Type} (h : Handler W)
    (config : Config) (sched : list Pick) (qs : list string) (w w' : W)
    (mr : MultiSearchResult) :
  processMultipleQueries h config sched qs w = Some (mr, w') ->
  length (Results mr) = length qs /\
  forall i q,
    qs !! i = Some q ->
    exists r tr,
      Results mr !! i = Some r /\
      Path (processQuery q (includeSummary config)) tr r.
Proof.
  unfold processMultipleQueries.
  destruct (h _ TimeNow w) as [startTime w0].
  destruct (workers config <? 0); [discriminate |].
  destruct (exec h config sched (initPool qs w0)) as [s |] eqn:Hexec;
    [| discriminate].
  destruct (mainAt s) eqn:Hmain; [discriminate |].
  intros Hrun.
  assert (Hinv : PoolInv config qs s).
  { eapply PoolInv_exec; [apply PoolInv_init | exact Hexec]. }
  assert (Hs : SlotsInv config qs s).
  { eapply SlotsInv_exec; [apply PoolInv_init | apply SlotsInv_init | exact Hexec]. }
  assert (Hmr : Results mr = results s).
  { pose proof (collectResults_run h config (Z.of_nat (length qs)) startTime
                  (results s) (world s)) as Hc.
    destruct (run h (collectResults config (Z.of_nat (length qs)) startTime
                       (results s)) (world s)) as [mr0 w1].
    simplify_eq. cbn [fst] in Hc. by rewrite Hc. }
  rewrite Hmr. split; [apply (inv_results _ _ _ Hinv) |].
  intros i q Hq. by eapply SlotsInv_waited.
Qed.

Lemma processQuery_summaryPresent (q : string) (b : bool) (tr : list Event)
    (r : SearchResult) :
  Path (processQuery q b) tr r -> summaryPresent b r.
Proof.
  intros Hp. apply processQuery_paths in Hp
    as (t0 & tr1 & sr & err & tr2 & -> & Hsearch & Hrest).
  unfold summaryPresent.
  destruct err as [e |].
  - destruct Hrest as (t & _ & ->). cbn [Summary Success].
    split; [done | by intros [? _]].
  - destruct (Success sr && b) eqn:Hb.
    + destruct Hrest as (summary & serr & Hsum & ->). cbn [Summary Success].
      apply andb_true_iff in Hb.
      split; [by intros _ |]. intros _.
      apply generateSummary_paths in Hsum as (_ & _ & Hne).
      destruct serr as [e |]; [discriminate |]. by apply Hne.
    + destruct Hrest as [_ ->]. cbn [Summary Success].
      split; [done |]. intros [H1 H2]. by rewrite H1, H2 in Hb.
Qed.

(** X11. Every slot of a returned batch holds an outcome of
    [processQuery] for the query at its position, with the batch's own
    summary setting: the interleaving of the workers decides which answers
    a worker receives, never what it does with them. *)
Theorem batch_slots_processQuery {W : Type} (h : Handler W) (config : Config)
    (sched : list Pick) (qs : list string) (w w' : W)
    (mr : MultiSearchResult) :
  processMultipleQueries h config sched qs w = Some (mr, w') ->
  forall i q,
    qs !! i = Some q ->
    exists r tr,
      Results mr !! i = Some r /\
      Path (processQuery q (includeSummary config)) tr r.
Proof. intros Hrun. by apply processMultipleQueries_slots in Hrun as [_ H]. Qed.

Lemma batch_slots_processQuery_witness :
  exists r tr,
    Results batchOutcome !! 1%nat = Some r /\
    Path (processQuery "Python" true) tr r.
Proof.
  apply (batch_slots_processQuery canned batchConfig batchSchedule
           batchQueries batchWorld batchEnd batchOutcome
           ltac:(vm_compute; reflexivity) 1%nat "Python").
  reflexivity.
Defined.

(** X12. In a returned batch an outcome carries a summary exactly when
    it is a success and summaries were requested: a failed query never has
    one, and a successful one always has one (the summarizer's text, or
    the fixed text when the summarizer failed). *)
Theorem batch_summaries {W : Type} (h : Handler W) (config : Config)
    (sched : list Pick) (qs : list string) (w w' : W)
    (mr : MultiSearchResult) :
  processMultipleQueries h config sched qs w = Some (mr, w') ->
  Forall (summaryPresent (includeSummary config)) (Results mr).
Proof.
  intros Hrun. apply processMultipleQueries_slots in Hrun as [Hlen Hat].
  apply Forall_lookup. intros i r Hr.
  destruct (lookup_lt_is_Some_2 qs i) as [q Hq].
  { rewrite <- Hlen. by eapply lookup_lt_Some. }
  destruct (Hat i q Hq) as (r' & tr & Hr' & Hp).
  rewrite Hr in Hr'. injection Hr' as <-.
  by eapply processQuery_summaryPresent.
Qed.

Lemma batch_summaries_witness :
  Forall (summaryPresent true) (Results batchOutcome).
Proof.
  apply (batch_summaries canned batchConfig batchSchedule batchQueries
           batchWorld batchEnd batchOutcome).
  vm_compute. reflexivity.
Defined.

(** ** When a batch returns *)

Section PoolBlocked.
Context {W : Type}.
Variable h : Handler W.
Variable config : Config.

Lemma allBlocked_step (pick : Pick) (s s' : Pool W) :
  workers config <= 0 ->
  allBlocked s -> step h config pick s = Some s' -> allBlocked s'.
Proof.
  intros Hworkers (Hall & Hwg & Hmain) Hstep.
  destruct pick as [| g]; simpl in Hstep.
  - unfold stepMain in Hstep.
    destruct (mainAt s) as [i [| q rest] |]; [| | done].
    + destruct (wg s); [| discriminate].
      destruct (goroutines s); [| discriminate]. by destruct Hmain.
    + injection Hstep as <-. unfold allBlocked. simpl.
      rewrite forallb_app, Hall, length_app, Hwg. simpl.
      repeat split; [lia |]. right. by destruct (goroutines s).
  - destruct (goroutines s !! g) as [gr |] eqn:Hg; [| discriminate].
    assert (Hgr : isAcquire gr = true).
    { rewrite forallb_forall in Hall. apply Hall.
      apply list_elem_of_In. by eapply list_elem_of_lookup_2. }
    destruct gr; try discriminate Hgr. simpl in Hstep.
    destruct (Z.of_nat (sem s) <? workers config) eqn:Hlt; [| discriminate].
    apply Z.ltb_lt in Hlt. lia.
Qed.

Lemma allBlocked_exec (sched : list Pick) (s s' : Pool W) :
  workers config <= 0 ->
  allBlocked s -> exec h config sched s = Some s' -> allBlocked s'.
Proof.
  intros Hworkers. revert s.
  induction sched as [| pick sched IH]; intros s Hs; simpl.
  - by intros [= <-].
  - destruct (step h config pick s) as [s1 |] eqn:Hstep; [| discriminate].
    apply IH. by eapply allBlocked_step.
Qed.

Lemma allBlocked_init (qs : list string) (w : W) :
  qs <> [] -> allBlocked (initPool qs w).
Proof. intros Hqs. repeat split. by left. Qed.
End PoolBlocked.

Lemma notDone_none (l : list Goroutine) :
  countIf notDone l = O -> l = replicate (length l) GExited.
Proof.
  induction l as [| gr l IH]; [done |]. simpl.
  destruct gr; try discriminate. intros H. by rewrite <- IH.
Qed.

Lemma countIf_exited (f : Goroutine -> bool) (n : nat) :
  f GExited = false -> countIf f (replicate n GExited) = O.
Proof. intros Hf. induction n as [| n IH]; [done |]. simpl. by rewrite Hf. Qed.

(** X13. When a batch can return.  With at least one worker slot some
    interleaving brings [processMultipleQueries] to its return; with none,
    only the empty batch returns: the workers of a non-empty batch all
    block at their send on the unbuffered [sem], under every interleaving.
    A negative worker count never returns. *)
Theorem batch_returns_iff {W : Type} (h : Handler W) (config : Config)
    (qs : list string) (w : W) :
  (exists sched, is_Some (processMultipleQueries h config sched qs w)) <->
  1 <= workers config \/ (workers config = 0 /\ qs = []).
Proof.
  unfold processMultipleQueries.
  destruct (h _ TimeNow w) as [startTime w0]. split.
  - intros [sched [out Hrun]].
    destruct (workers config <? 0) eqn:Hneg; [discriminate |].
    apply Z.ltb_ge in Hneg.
    destruct (decide (1 <= workers config)) as [| Hzero]; [by left |].
    right. split; [lia |].
    destruct qs as [| q qs]; [reflexivity |]. exfalso.
    destruct (exec h config sched (initPool (q :: qs) w0)) as [s |] eqn:Hexec;
      [| discriminate].
    assert (Hb : allBlocked s).
    { eapply allBlocked_exec; [| | exact Hexec]; [lia |].
      by apply allBlocked_init. }
    destruct Hb as (_ & _ & Hmain). by destruct (mainAt s).
  - intros [Hworkers | [Hzero ->]].
    + destruct (completes h config qs (remaining (initPool qs w0))
                  (initPool qs w0) (PoolInv_init config qs w0) Hworkers
                  (le_n _)) as (sched & s' & Hexec & Hwaited).
      exists sched.
      destruct (workers config <? 0) eqn:Hneg; [apply Z.ltb_lt in Hneg; lia |].
      rewrite Hexec, Hwaited. by eexists.
    + exists [PMain]. rewrite Hzero. simpl. by eexists.
Qed.

(** X14. Nothing is left behind when [wg.Wait()] returns: every worker
    has exited, [sem] is empty, the counter of [wg] is zero, no backend
    call is in flight, and no goroutine of the batch can take another
    step. *)
Theorem batch_quiescent {W : Type} (h : Handler W) (config : Config)
    (sched : list Pick) (qs : list string) (w0 : W) (s : Pool W) :
  exec h config sched (initPool qs w0) = Some s ->
  mainAt s = MWaited ->
  goroutines s = replicate (length qs) GExited /\
  sem s = O /\ wg s = O /\ inFlight s = O /\
  forall pick, step h config pick s = None.
Proof.
  intros Hexec Hwaited.
  assert (Hinv : PoolInv config qs s).
  { eapply PoolInv_exec; [apply PoolInv_init | exact Hexec]. }
  destruct Hinv as [Hres Hmain Hgo Hsem Hwg Hcap].
  rewrite Hwaited in Hmain. destruct Hmain as [Hlen Hzero].
  rewrite Hzero in Hwg. symmetry in Hwg. apply notDone_none in Hwg.
  rewrite Hlen in Hwg.
  split; [exact Hwg |]. split; [| split; [exact Hzero | split]].
  - rewrite Hsem, Hwg. by apply countIf_exited.
  - unfold inFlight. rewrite Hwg. by apply countIf_exited.
  - intros [| g]; simpl.
    + unfold stepMain. by rewrite Hwaited.
    + rewrite Hwg.
      destruct (replicate (length qs) GExited !! g) as [gr |] eqn:Hg;
        [| reflexivity].
      apply lookup_replicate in Hg as [-> _]. reflexivity.
Qed.

Lemma batch_quiescent_witness :
  goroutines batchPool = replicate 2 GExited /\
  sem batchPool = O /\ wg batchPool = O /\ inFlight batchPool = O /\
  forall pick, step canned batchConfig pick batchPool = None.
Proof.
  apply (batch_quiescent canned batchConfig batchSchedule batchQueries
           (canned _ TimeNow batchWorld).2 batchPool).
  - vm_compute. reflexivity.
  - reflexivity.
Defined.

(** * Rendering and exit status *)

Lemma stdout_printed (l : list string) : stdout (printed l) = l.
Proof. induction l as [| x l IH]; [done |]. simpl. by f_equal. Qed.

Lemma stderr_printed (level : LogLevel) (l : list string) :
  stderr level (printed l) = [].
Proof. by induction l. Qed.

Lemma requests_printed (l : list string) : backend_requests (printed l) = [].
Proof. by induction l. Qed.

Lemma printed_app (l1 l2 : list string) :
  printed (l1 ++ l2) = printed l1 ++ printed l2.
Proof. apply map_app. Qed.

Lemma stdout_app (tr1 tr2 : list Event) :
  stdout (tr1 ++ tr2) = stdout tr1 ++ stdout tr2.
Proof. apply omap_app. Qed.

Lemma stderr_app (level : LogLevel) (tr1 tr2 : list Event) :
  stderr level (tr1 ++ tr2) = stderr level tr1 ++ stderr level tr2.
Proof. apply omap_app. Qed.

Lemma trigger_paths (s : string) (tr : list Event) (u : unit) :
  Path (trigger (Stdout s)) tr u -> tr = printed [s].
Proof. intros (x & tr' & -> & -> & _). by destruct x. Qed.

Lemma printSummaryLines_paths (rs : list SearchResult) (tr : list Event)
    (u : unit) :
  Path (printSummaryLines rs) tr u -> tr = printed (map summaryLine rs).
Proof.
  revert tr. induction rs as [| r rs IH]; intros tr H;
    cbn [printSummaryLines] in H.
  - by destruct H as [-> _].
  - apply Path_bind in H as (a & tr1 & tr2 & -> & H1 & H2).
    apply IH in H2 as ->.
    change (map summaryLine (r :: rs)) with ([summaryLine r] ++ map summaryLine rs).
    rewrite printed_app. f_equal. unfold summaryLine.
    destruct (Success r); by apply trigger_paths in H1.
Qed.

Lemma printDetails_paths (many : bool) (rs : list SearchResult)
    (tr : list Event) (u : unit) :
  Path (printDetails many rs) tr u ->
  tr = printed (flat_map (detailLines many) rs).
Proof.
  revert tr. induction rs as [| r rs IH]; intros tr H;
    cbn [printDetails] in H.
  - by destruct H as [-> _].
  - apply Path_bind in H as (a1 & tr1 & tr2 & -> & H1 & H).
    apply Path_bind in H as (a2 & tr3 & tr4 & -> & H2 & H).
    apply Path_bind in H as (a3 & tr5 & tr6 & -> & H3 & H).
    apply IH in H as ->. apply trigger_paths in H3 as ->.
    assert (E1 : tr1 = printed (if many
                                then ["=== " +:+ Query r +:+ " ===" +:+ newline]
                                else [])).
    { destruct many; [by apply trigger_paths in H1 | by destruct H1 as [-> _]]. }
    assert (E2 : tr3 = printed [if Success r then Response r +:+ newline
                                else "Status: FAILED - " +:+ Error r
                                     +:+ newline]).
    { destruct (Success r); by apply trigger_paths in H2 as ->. }
    rewrite E1, E2. cbn [flat_map]. rewrite printed_app.
    unfold detailLines. by rewrite printed_app, <- app_assoc.
Qed.

Lemma MultiSearchResult_Output_paths
    (enc : MultiSearchResult -> Prog (option GoError))
    (m : MultiSearchResult) (isStream b : bool) (tr : list Event)
    (err : option GoError) :
  Path (MultiSearchResult_Output enc m false isStream b) tr err ->
  err = None /\
  tr = printed
         (if isStream then [completionLine (Results m)]
          else (if b then overviewLines (Results m) else [])
               ++ flat_map (detailLines (1 <? length (Results m))%nat)
                    (Results m)).
Proof.
  unfold MultiSearchResult_Output. cbv beta iota zeta.
  destruct isStream.
  - intros H. apply Path_bind in H as (a & tr1 & tr2 & -> & H1 & [-> ->]).
    apply trigger_paths in H1 as ->. by rewrite app_nil_r.
  - intros H. apply Path_bind in H as (a1 & tr1 & tr2 & -> & H1 & H).
    apply Path_bind in H as (a2 & tr3 & tr4 & -> & H2 & [-> ->]).
    apply printDetails_paths in H2 as ->.
    split; [reflexivity |]. rewrite app_nil_r, printed_app. f_equal.
    destruct b; [| by destruct H1 as [-> _]].
    apply Path_bind in H1 as (b1 & t1 & t2 & -> & P1 & H1).
    apply Path_bind in H1 as (b2 & t3 & t4 & -> & P2 & H1).
    apply Path_bind in H1 as (b3 & t5 & t6 & -> & P3 & H1).
    apply Path_bind in H1 as (b4 & t7 & t8 & -> & P4 & P5).
    apply trigger_paths in P1 as ->. apply trigger_paths in P2 as ->.
    apply printSummaryLines_paths in P3 as ->.
    apply trigger_paths in P4 as ->. apply trigger_paths in P5 as ->.
    unfold overviewLines. by rewrite !printed_app.
Qed.

Lemma SearchResult_Output_paths
    (enc : SearchResult -> Prog (option GoError)) (r : SearchResult)
    (tr : list Event) (err : option GoError) :
  Path (SearchResult_Output enc r false) tr err ->
  if Success r
  then err = None /\
       tr = printed (summaryHeader (Summary r) ++ [Response r +:+ newline])
  else err = Some "search failed" /\
       tr = [Ev (Stderr ("Search failed: " +:+ Error r +:+ newline)) tt].
Proof.
  unfold SearchResult_Output. cbv beta iota zeta.
  destruct (Success r); cbn [negb]; cbv beta iota.
  - intros H. apply Path_bind in H as (a1 & tr1 & tr2 & -> & H1 & H).
    apply Path_bind in H as (a2 & tr3 & tr4 & -> & H2 & [-> ->]).
    apply trigger_paths in H2 as ->.
    split; [reflexivity |]. rewrite app_nil_r, printed_app. f_equal.
    unfold summaryHeader.
    destruct (String.eqb (Summary r) ""); cbn [negb] in H1;
      [by destruct H1 as [-> _] |].
    apply Path_bind in H1 as (b1 & t1 & t2 & -> & P1 & P2).
    apply trigger_paths in P1 as ->. by apply trigger_paths in P2 as ->.
  - intros H. apply Path_bind in H as (a & tr1 & tr2 & -> & H1 & [-> ->]).
    destruct H1 as (x & tr' & -> & -> & _). by destruct x.
Qed.

(** X15. Rendering a batch as text cannot fail and only writes to
    standard output, whatever the outcomes.  In stream mode it writes the
    completion line alone; otherwise one detailed section per outcome, in
    order, with the query as heading when there are several, the answer of
    a success and the failure reason of a failure; with summaries the
    overview block comes first and the detailed sections are unchanged. *)
Theorem batch_Output_text {W : Type} (h : Handler W)
    (enc : MultiSearchResult -> Prog (option GoError))
    (m : MultiSearchResult) (isStream b : bool) (w : W) :
  let p := MultiSearchResult_Output enc m false isStream b in
  (run h p w).1 = None /\
  trace_of h p w = printed (stdout (trace_of h p w)) /\
  stdout (trace_of h p w)
  = if isStream then [completionLine (Results m)]
    else (if b then overviewLines (Results m) else [])
         ++ flat_map (detailLines (1 <? length (Results m))%nat) (Results m).
Proof.
  intros p.
  destruct (MultiSearchResult_Output_paths enc m isStream b _ _
              (run_Path h p w)) as [Herr Htr].
  split; [exact Herr |]. rewrite Htr, stdout_printed. by split.
Qed.

(** X16. The exit status of a batch.  The process exits 0 exactly when
    rendering returned no error and every query succeeded, and 1
    otherwise.  Rendering a batch as text writes nothing to standard
    error, at either level of the logger: the renderer shows a failed
    query on standard output only. *)
Theorem mainMultiple_status {W : Type} (h : Handler W)
    (enc : MultiSearchResult -> Prog (option GoError)) (sched : list Pick)
    (config : Config) (w w' : W) (code : Z) :
  mainMultiple enc h sched config w = Some (code, w') ->
  exists mr w1,
    processMultipleQueries h config sched (queries config) w = Some (mr, w1) /\
    let p := MultiSearchResult_Output enc mr (outputJSON config)
               (stream config) (includeSummary config) in
    (code = 0 \/ code = 1) /\
    (code = 0 <->
     (run h p w1).1 = None /\
     Forall (fun r => Success r = true) (Results mr)) /\
    (outputJSON config = false ->
     (forall level, stderr level (trace_of h p w1) = []) /\
     (code = 0 <-> Forall (fun r => Success r = true) (Results mr))).
Proof.
  unfold mainMultiple.
  destruct (processMultipleQueries h config sched (queries config) w)
    as [[mr w1] |] eqn:Hrun; [| discriminate].
  assert (Hall : MSuccess mr = true <->
                 Forall (fun r => Success r = true) (Results mr)).
  { apply processMultipleQueries_returned in Hrun
      as (s & Hinv & Hwaited & ->).
    rewrite collectResults_run. cbn [MSuccess Results].
    rewrite <- (inv_results _ _ _ Hinv), Z.eqb_eq. apply countSuccess_all. }
  intros H. exists mr, w1. split; [reflexivity |]. cbv zeta.
  pose proof (run_Path h (MultiSearchResult_Output enc mr (outputJSON config)
                            (stream config) (includeSummary config)) w1) as HP.
  destruct (run h (MultiSearchResult_Output enc mr (outputJSON config)
                     (stream config) (includeSummary config)) w1)
    as [err w2] eqn:Hout.
  cbn [fst] in *.
  assert (Htext : outputJSON config = false ->
                  err = None /\
                  forall level,
                    stderr level
                      (trace_of h (MultiSearchResult_Output enc mr
                                     (outputJSON config) (stream config)
                                     (includeSummary config)) w1) = []).
  { intros Hj. rewrite Hj in HP |- *.
    apply MultiSearchResult_Output_paths in HP as [-> ->].
    split; [reflexivity |]. intros level. by rewrite stderr_printed. }
  destruct err as [e |].
  - injection H as <- <-. split; [by right |].
    split; [split; [discriminate | by intros [? _]] |].
    intros Hj. by destruct (Htext Hj).
  - destruct (MSuccess mr) eqn:Hs; cbn [negb] in H; injection H as <- <-.
    + split; [by left |].
      split; [split; [intros _; split; [reflexivity | by apply Hall] | done] |].
      intros Hj. split; [by apply Htext |].
      split; [intros _; by apply Hall | done].
    + split; [by right |].
      split; [split; [discriminate | intros [_ Hf]; apply Hall in Hf; discriminate] |].
      intros Hj. split; [by apply Htext |].
      split; [discriminate | intros Hf; apply Hall in Hf; discriminate].
Qed.

Lemma mainMultiple_status_witness :
  exists mr w1,
    processMultipleQueries canned batchConfig batchSchedule
      (queries batchConfig) batchWorld = Some (mr, w1) /\
    let p := MultiSearchResult_Output noEncoder mr (outputJSON batchConfig)
               (stream batchConfig) (includeSummary batchConfig) in
    (batchExit.1 = 0 \/ batchExit.1 = 1) /\
    (batchExit.1 = 0 <->
     (run canned p w1).1 = None /\
     Forall (fun r => Success r = true) (Results mr)) /\
    (outputJSON batchConfig = false ->
     (forall level, stderr level (trace_of canned p w1) = []) /\
     (batchExit.1 = 0 <-> Forall (fun r => Success r = true) (Results mr))).
Proof.
  apply (mainMultiple_status canned noEncoder batchSchedule batchConfig
           batchWorld batchExit.2 batchExit.1).
  vm_compute. reflexivity.
Defined.

(** ** A single query *)

Lemma mainSingleQuery_output {W : Type} (h : Handler W) (config : Config)
    (w : W) :
  stream config = false ->
  let s := run h (performSingleSearch (query config)) w in
  stdout (trace_of h (mainSingleQuery config) w) = [] /\
  forall level,
    stderr level (trace_of h (mainSingleQuery config) w)
    = stderr level (trace_of h (performSingleSearch (query config)) w)
      ++ match s.1.2 with
         | Some e => fatalLines "Search failed" e
         | None => []
         end.
Proof.
  intros Hstream s. subst s. unfold mainSingleQuery. rewrite Hstream.
  unfold_prog. rewrite trace_of_bind, stdout_app.
  destruct (performSingleSearch_shape _ _ _
              (run_Path h (performSingleSearch (query config)) w))
    as (_ & _ & Hout & _).
  rewrite Hout.
  destruct (run h (performSingleSearch (query config)) w) as [[sr err] w1].
  cbn [fst snd app].
  destruct err as [e |].
  - unfold handleError. unfold_prog. rewrite !trace_of_vis.
    split; [reflexivity |]. intros level. by rewrite stderr_app.
  - destruct (includeSummary config && Success sr).
    + rewrite trace_of_bind, stdout_app.
      destruct (generateSummary_shape _ _ _ _
                  (run_Path h (generateSummary (Query sr) (Response sr)) w1))
        as (_ & _ & Ho & He).
      rewrite Ho.
      destruct (run h (generateSummary (Query sr) (Response sr)) w1)
        as [[summary serr] w2].
      destruct serr; (split; [reflexivity |]); intros level;
        by rewrite !stderr_app, He.
    + split; [reflexivity |]. intros level. by rewrite stderr_app.
Qed.

Lemma performSingleSearch_no_summary {W : Type} (h : Handler W) (q : string)
    (w : W) :
  Summary (run h (performSingleSearch q) w).1.1 = "".
Proof.
  destruct (performSingleSearch_paths q _ _
              (run_Path h (performSingleSearch q) w)) as [HR _].
  by destruct HR.
Qed.

Lemma generateSummary_nonempty {W : Type} (h : Handler W)
    (q response : string) (w : W) :
  let g := run h (generateSummary q response) w in
  match g.1.2 with Some _ => summaryFailed | None => g.1.1 end <> "".
Proof.
  intros g.
  destruct (generateSummary_paths q response _ _
              (run_Path h (generateSummary q response) w)) as (_ & _ & Hne).
  fold g in Hne. destruct (g.1.2); [discriminate | by apply Hne].
Qed.

(** X17. A single query rendered as text, with the logger
    [setupLogger] installs.  When the search fails the process exits 1
    having written nothing to standard output; standard error carries the
    executor's log records, then the record and the line of
    [handleError] with the executor's error: the renderer is not reached.
    When it succeeds the process exits 0; standard error carries the
    executor's log records and nothing else; standard output carries the
    answer, after the summary block when summaries are requested, with
    the fixed text when the summarizer failed.  The executor's log
    records are none without [-verbose]. *)
Theorem mainSingle_text {W : Type} (h : Handler W)
    (enc : SearchResult -> Prog (option GoError)) (config : Config) (w : W) :
  stream config = false ->
  outputJSON config = false ->
  let s := run h (performSingleSearch (query config)) w in
  let g := run h (generateSummary (Query s.1.1) (Response s.1.1)) s.2 in
  let summary := match g.1.2 with Some _ => summaryFailed | None => g.1.1 end in
  let code := (run h (mainSingle enc config) w).1 in
  let tr := trace_of h (mainSingle enc config) w in
  let level := setupLogger (verbose config) in
  let log :=
    stderr level (trace_of h (performSingleSearch (query config)) w) in
  log = executorLog level "Retrying search request" (query config)
          (length (backend_requests
                     (trace_of h (performSingleSearch (query config)) w))) /\
  match s.1.2 with
  | Some e =>
      Success s.1.1 = false /\ code = 1 /\ stdout tr = [] /\
      stderr level tr = log ++ fatalLines "Search failed" e
  | None =>
      Success s.1.1 = true /\ code = 0 /\ stderr level tr = log /\
      stdout tr
      = (if includeSummary config
         then ["## SUMMARY" +:+ newline +:+ summary +:+ newline +:+ newline;
               "## DETAILED RESPONSE" +:+ newline]
         else [])
        ++ [Response s.1.1 +:+ newline]
  end.
Proof.
  intros Hstream Hjson s g summary code tr level log.
  split.
  { eapply performSingleSearch_shape, run_Path. }
  subst code tr log.
  unfold mainSingle. unfold_prog.
  rewrite run_bind, trace_of_bind, stdout_app, stderr_app.
  destruct (mainSingleQuery_output h config w Hstream) as [Hout Herr].
  rewrite Hout, (Herr level).
  pose proof (mainSingleQuery_run h config w Hstream) as Hflow.
  cbv zeta in Hflow.
  pose proof (performSingleSearch_no_error h (query config) w) as Hok.
  pose proof (performSingleSearch_no_summary h (query config) w) as Hsum.
  pose proof (generateSummary_nonempty h (Query s.1.1) (Response s.1.1) s.2)
    as Hne.
  cbv zeta in Hne. fold g in Hne. fold summary in Hne.
  fold s in Hflow, Hok, Hsum |- *. fold g in Hflow. fold summary in Hflow.
  destruct (run h (mainSingleQuery config) w) as [flow w1].
  cbn [fst snd] in *. subst flow.
  destruct (s.1.2) as [e |].
  - assert (Hf : Success s.1.1 = false).
    { destruct (Success s.1.1); [| reflexivity].
      discriminate (proj1 Hok eq_refl). }
    split; [exact Hf |]. split; [reflexivity |]. split; [reflexivity |].
    change (trace_of h (Ret 1) w1) with (@nil Event).
    by rewrite app_nil_r.
  - assert (Ht : Success s.1.1 = true) by by apply Hok.
    rewrite Ht, andb_true_r. split; [reflexivity |].
    set (r := if includeSummary config
              then Continue
                     (mkSearchResult (Query s.1.1) (Response s.1.1) summary
                        true (Error s.1.1) (Duration s.1.1) (Timestamp s.1.1))
              else Continue s.1.1).
    assert (Hr : exists r0,
               r = Continue r0 /\ Success r0 = true /\
               Response r0 = Response s.1.1 /\
               Summary r0 = if includeSummary config then summary else "").
    { subst r. destruct (includeSummary config); eexists; by repeat split. }
    destruct Hr as (r0 & -> & Hs0 & Hr0 & Hsum0).
    rewrite Hjson, run_bind.
    pose proof (SearchResult_Output_paths enc r0 _ _
                  (run_Path h (SearchResult_Output enc r0 false) w1)) as HP.
    rewrite Hs0 in HP. destruct HP as [Herr0 Htr0].
    rewrite !trace_of_bind, Herr0, Htr0.
    change (trace_of h (Ret 0) ?w0) with (@nil Event).
    rewrite !app_nil_r, stdout_printed, stderr_printed, Hsum0, Hr0.
    split; [reflexivity |]. split; [by rewrite app_nil_r |].
    cbn [app]. f_equal. unfold summaryHeader.
    destruct (includeSummary config); [| reflexivity].
    apply String.eqb_neq in Hne. by rewrite Hne.
Qed.

Lemma mainSingle_text_witness :
  stderr LevelInfo (trace_of canned (performSingleSearch "Go") singleWorld)
  = [ErrRecord LevelInfo "Performing search" [("query", LStr "Go")]] /\
  Success (run canned (performSingleSearch "Go") singleWorld).1.1 = true /\
  (run canned (mainSingle noEncoder singleConfig) singleWorld).1 = 0 /\
  stderr LevelInfo
    (trace_of canned (mainSingle noEncoder singleConfig) singleWorld)
  = [ErrRecord LevelInfo "Performing search" [("query", LStr "Go")]] /\
  stdout (trace_of canned (mainSingle noEncoder singleConfig) singleWorld)
  = ["## SUMMARY" +:+ newline +:+ "short" +:+ newline +:+ newline;
     "## DETAILED RESPONSE" +:+ newline]
    ++ ["a language" +:+ newline].
Proof.
  pose proof (mainSingle_text canned noEncoder singleConfig singleWorld
                eq_refl eq_refl) as H.
  vm_compute in H. vm_compute. exact H.
Defined.

Lemma performSingleSearchStream_no_error {W : Type} (h : Handler W)
    (q : string) (w : W) :
  (run h (performSingleSearchStream q) w).1.2 <> None <->
  Success (run h (performSingleSearchStream q) w).1.1 = false.
Proof.
  destruct (performSingleSearchStream_paths q _ _
              (run_Path h (performSingleSearchStream q) w)) as [HR _].
  by apply StreamRun_reported in HR as [[H _] _].
Qed.

Lemma mainSingleQuery_stream {W : Type} (h : Handler W) (config : Config)
    (w : W) :
  stream config = true ->
  let s := run h (performSingleSearchStream (query config)) w in
  (run h (mainSingleQuery config) w).1
  = Exit (if Success s.1.1 then 0 else 1) /\
  trace_of h (mainSingleQuery config) w
  = trace_of h (performSingleSearchStream (query config)) w
    ++ match s.1.2 with
       | Some e => fatal "Search failed" e
       | None => []
       end.
Proof.
  intros Hstream s.
  pose proof (performSingleSearchStream_no_error h (query config) w) as Hok.
  fold s in Hok.
  unfold mainSingleQuery. rewrite Hstream. unfold_prog.
  rewrite run_bind, trace_of_bind. fold s.
  destruct s as [[sr err] w1]. cbn [fst snd] in *.
  destruct err as [e |].
  - assert (Hf : Success sr = false) by by apply Hok.
    rewrite Hf. unfold handleError, fatal. unfold_prog.
    rewrite !trace_of_vis. cbn [run].
    repeat match goal with
      | |- context [h ?X ?e ?w] => destruct (h X e w) as [[] ?]
      end.
    by split.
  - destruct (Success sr) eqn:Hs; [by split |].
    by destruct (proj2 Hok eq_refl).
Qed.

(** X18. A single query in stream mode.  After the streaming executor
    nothing else happens: no summary is requested and nothing is
    rendered, whatever the summary and JSON settings; a failure adds the
    log record and the line of [handleError].  The process exits 0
    exactly when the outcome is a success. *)
Theorem mainSingle_stream {W : Type} (h : Handler W)
    (enc : SearchResult -> Prog (option GoError)) (config : Config) (w : W) :
  stream config = true ->
  let s := run h (performSingleSearchStream (query config)) w in
  (run h (mainSingle enc config) w).1 = (if Success s.1.1 then 0 else 1) /\
  trace_of h (mainSingle enc config) w
  = trace_of h (performSingleSearchStream (query config)) w
    ++ match s.1.2 with
       | Some e => fatal "Search failed" e
       | None => []
       end.
Proof.
  intros Hstream s.
  destruct (mainSingleQuery_stream h config w Hstream) as [Hrun Htr].
  fold s in Hrun, Htr.
  unfold mainSingle. unfold_prog.
  rewrite run_bind, trace_of_bind, Hrun, Htr.
  split; [reflexivity |]. apply app_nil_r.
Qed.

Lemma mainSingle_stream_witness :
  (run canned (mainSingle noEncoder streamConfig) streamWorld).1 = 1 /\
  stdout (trace_of canned (mainSingle noEncoder streamConfig) streamWorld)
  = [streamBanner "Go"; "a lang"; retryNotice; streamRule] /\
  stderr (setupLogger (verbose streamConfig))
    (trace_of canned (mainSingle noEncoder streamConfig) streamWorld)
  = fatalLines "Search failed"
      "failed to stream content after retries: reset".
Proof.
  destruct (mainSingle_stream canned noEncoder streamConfig streamWorld
              eq_refl) as [Hcode Htr].
  rewrite Hcode, Htr. vm_compute. by repeat split.
Defined.

(** X19. What a single query hands to the renderer, as text or as JSON,
    with the logger [setupLogger] installs.  A failed search is never
    rendered: the process exits 1 with nothing on standard output, so in
    JSON mode no JSON is written, and standard error carries the
    executor's log records, then the record and the line of
    [handleError].  A rendered outcome is always a success carrying the
    executor's answer, with a summary exactly when summaries are
    requested; standard output carries what the renderer writes and
    nothing else, standard error the executor's log records and then what
    the renderer writes, and the process exits 1 exactly when the
    renderer returns an error.  The executor's log records are none
    without [-verbose]. *)
Theorem mainSingle_renders_success {W : Type} (h : Handler W)
    (enc : SearchResult -> Prog (option GoError)) (config : Config) (w : W) :
  stream config = false ->
  let s := run h (performSingleSearch (query config)) w in
  let m := run h (mainSingleQuery config) w in
  let code := (run h (mainSingle enc config) w).1 in
  let tr := trace_of h (mainSingle enc config) w in
  let level := setupLogger (verbose config) in
  let log :=
    stderr level (trace_of h (performSingleSearch (query config)) w) in
  log = executorLog level "Retrying search request" (query config)
          (length (backend_requests
                     (trace_of h (performSingleSearch (query config)) w))) /\
  match s.1.2 with
  | Some e =>
      m.1 = Exit 1 /\ code = 1 /\ stdout tr = [] /\
      stderr level tr = log ++ fatalLines "Search failed" e
  | None =>
      exists r,
        m.1 = Continue r /\
        Success r = true /\
        Response r = Response s.1.1 /\
        (Summary r <> "" <-> includeSummary config = true) /\
        let o := SearchResult_Output enc r (outputJSON config) in
        code = match (run h o m.2).1 with Some _ => 1 | None => 0 end /\
        stdout tr = stdout (trace_of h o m.2) /\
        stderr level tr = log ++ stderr level (trace_of h o m.2)
  end.
Proof.
  intros Hstream s m code tr level log.
  split.
  { eapply performSingleSearch_shape, run_Path. }
  subst code tr log.
  unfold mainSingle. unfold_prog.
  rewrite run_bind, trace_of_bind, stdout_app, stderr_app.
  destruct (mainSingleQuery_output h config w Hstream) as [Hout Herr].
  rewrite Hout, (Herr level).
  pose proof (mainSingleQuery_run h config w Hstream) as Hflow.
  cbv zeta in Hflow.
  pose proof (performSingleSearch_no_error h (query config) w) as Hok.
  pose proof (performSingleSearch_no_summary h (query config) w) as Hsum.
  pose proof (generateSummary_nonempty h (Query s.1.1) (Response s.1.1) s.2)
    as Hne.
  cbv zeta in Hne.
  fold s in Hflow, Hok, Hsum |- *. fold m in Hflow |- *.
  destruct (s.1.2) as [e |].
  - rewrite Hflow.
    split; [reflexivity |]. split; [reflexivity |]. split; [reflexivity |].
    change (trace_of h (Ret 1) m.2) with (@nil Event).
    by rewrite app_nil_r.
  - assert (Ht : Success s.1.1 = true) by by apply Hok.
    rewrite Ht, andb_true_r in Hflow.
    destruct (includeSummary config); rewrite Hflow.
    + eexists. split; [reflexivity |]. cbn [Success Response Summary].
      split; [reflexivity |]. split; [reflexivity |]. split; [by split |].
      cbv zeta. rewrite run_bind, trace_of_bind, stdout_app, stderr_app.
      destruct (run h (SearchResult_Output enc _ (outputJSON config)) m.2)
        as [[e |] w2]; by repeat split; rewrite ?app_nil_r.
    + exists s.1.1. split; [reflexivity |].
      split; [exact Ht |]. split; [reflexivity |].
      split; [by rewrite Hsum |].
      cbv zeta. rewrite run_bind, trace_of_bind, stdout_app, stderr_app.
      destruct (run h (SearchResult_Output enc _ (outputJSON config)) m.2)
        as [[e |] w2]; by repeat split; rewrite ?app_nil_r.
Qed.

Lemma mainSingle_renders_success_witness :
  stderr LevelError
    (trace_of canned (performSingleSearch "Go") failingWorld) = [] /\
  (run canned (mainSingleQuery streamlessConfig) failingWorld).1 = Exit 1 /\
  (run canned (mainSingle noEncoder streamlessConfig) failingWorld).1 = 1 /\
  stdout (trace_of canned (mainSingle noEncoder streamlessConfig) failingWorld)
  = [] /\
  stderr LevelError
    (trace_of canned (mainSingle noEncoder streamlessConfig) failingWorld)
  = fatalLines "Search failed" "received empty response after retries".
Proof.
  pose proof (mainSingle_renders_success canned noEncoder streamlessConfig
                failingWorld eq_refl) as H.
  vm_compute in H. vm_compute. exact H.
Defined.

(** * From the command line to the batch *)

Lemma fold_setFlag_fields (flags : list FlagOccurrence) (c0 : Config) :
  queries (fold_left setFlag flags c0) = queries c0 ++ omap qValue flags /\
  workers (fold_left setFlag flags c0)
  = default (workers c0) (last (omap workersValue flags)) /\
  verbose (fold_left setFlag flags c0)
  = default (verbose c0) (last (omap verboseValue flags)).
Proof.
  revert c0. induction flags as [| f flags IH]; intros c0; cbn [fold_left].
  - simpl. by rewrite app_nil_r.
  - destruct (IH (setFlag c0 f)) as (-> & -> & ->).
    destruct f; simpl; rewrite ?last_cons, <- ?app_assoc;
      repeat split; try reflexivity;
      match goal with
      | |- context [last (omap ?f ?l)] =>
          change (list_omap _ _ f l) with (omap f l);
          by destruct (last (omap f l))
      end.
Qed.

(** X20. Repeated flags.  The batch queries are the values of the [-q]
    occurrences in the order of the command line; for [-workers] the
    last occurrence counts, and the default is 3; [-verbose] and [-v] set
    the same switch, and the last occurrence of either counts. *)
Theorem parseFlags_repeated (flags : list FlagOccurrence)
    (args : list string) :
  queries (parseFlags flags args) = omap qValue flags /\
  workers (parseFlags flags args)
  = default 3 (last (omap workersValue flags)) /\
  verbose (parseFlags flags args)
  = default false (last (omap verboseValue flags)).
Proof.
  unfold parseFlags.
  set (c1 := fold_left setFlag flags defaultConfig).
  destruct (defaultSummary_frame (usePositional c1 args))
    as (_ & -> & _ & -> & _ & -> & _).
  destruct (usePositional_frame c1 args) as (-> & _ & -> & _ & -> & _).
  apply (fold_setFlag_fields flags defaultConfig).
Qed.

Lemma validateConfig_batch (config : Config) :
  validateConfig config = None ->
  queries config <> [] ->
  1 <= workers config <= 5 /\ stream config = false /\ query config = "".
Proof.
  unfold validateConfig. intros H Hqs.
  destruct (queries config) as [| q0 qs]; [done |].
  destruct (query config) as [| c q]; [| discriminate H].
  cbn [String.eqb negb length Nat.ltb Nat.leb andb] in H.
  destruct (workers config <? 1) eqn:H1; [discriminate H |].
  destruct (5 <? workers config) eqn:H5; [discriminate H |].
  apply Z.ltb_ge in H1, H5. cbn [orb] in H.
  destruct (stream config); [discriminate H |].
  repeat split; lia.
Qed.

(** X21. A batch that passed [validateConfig].  It is never rendered in
    stream mode; in every state it can reach at most five backend calls
    are in flight; and however far an interleaving of its goroutines has
    got, it can be continued until the process exits. *)
Theorem validated_batch {W : Type} (h : Handler W)
    (enc : MultiSearchResult -> Prog (option GoError)) (config : Config)
    (w : W) :
  validateConfig config = None ->
  queries config <> [] ->
  stream config = false /\
  forall sched s,
    exec h config sched (initPool (queries config) (h _ TimeNow w).2)
    = Some s ->
    (inFlight s <= 5)%nat /\
    exists sched', is_Some (mainMultiple enc h (sched ++ sched') config w).
Proof.
  intros Hvalid Hqs.
  destruct (validateConfig_batch config Hvalid Hqs) as (Hworkers & Hstream & _).
  split; [exact Hstream |]. intros sched s Hexec.
  assert (Hinv : PoolInv config (queries config) s).
  { eapply PoolInv_exec; [apply PoolInv_init | exact Hexec]. }
  split.
  - destruct Hinv as [_ _ _ Hsem _ Hcap].
    assert (Hle : (inFlight s <= sem s)%nat).
    { rewrite Hsem. apply countIf_le. by intros []. }
    lia.
  - destruct (completes h config (queries config) (remaining s) s Hinv
                ltac:(lia) (le_n _)) as (sched' & s' & Hexec' & Hwaited).
    exists sched'. unfold mainMultiple, processMultipleQueries.
    destruct (h _ TimeNow w) as [startTime w0]. simpl in Hexec.
    destruct (workers config <? 0) eqn:Hneg; [apply Z.ltb_lt in Hneg; lia |].
    rewrite exec_app, Hexec, Hexec', Hwaited.
    destruct (run h (collectResults _ _ _ _) _) as [mr w1].
    destruct (run h (MultiSearchResult_Output _ _ _ _ _) _) as [[e |] w2];
      [by eexists |].
    destruct (MSuccess mr); by eexists.
Qed.

Lemma validated_batch_witness :
  stream batchConfig = false /\
  forall sched s,
    exec canned batchConfig sched
      (initPool (queries batchConfig) (canned _ TimeNow batchWorld).2)
    = Some s ->
    (inFlight s <= 5)%nat /\
    exists sched',
      is_Some (mainMultiple noEncoder canned (sched ++ sched') batchConfig
                 batchWorld).
Proof.
  apply (validated_batch canned noEncoder batchConfig batchWorld);
    [reflexivity | discriminate].
Defined.
